(** * Tracer diffusion flux kernel of the Lecoanet Kelvin-Helmholtz setup

    Shallow embedding of [src/tracer_rhs_flux.c] (functions
    [RHS_TRACER_Flux] and [GetTracerGradient]) under the compile-time
    configuration of [src/definitions.h].

    Modelling conventions.
    - A C [double] is a value of a carrier [T] equipped with the operations
      the kernel uses ([+], [-], [*], [/], [sin] and the literals [1.0],
      [2], [0.25]).  Every statement on which index is read or written, and
      on which expression is stored, is proved for an arbitrary carrier.
      The carrier of the program is IEEE binary64, the instance [binary64]
      on the primitive floats, each operation rounded to nearest even and
      evaluated in the order of the source, without contraction or extended
      precision.  The statements on values (exact zero, cancellation,
      scaling) are proved or refuted there, rounding, overflow, underflow,
      infinities and NaN included.
    - A C array is a total map from [Z] indices to values; an assignment
      [a[i] = v] is the pointwise update [upd].  The arrays handed over by
      the host (tracer field, sweep state, grid, flux) and the kernel's own
      gradient buffer are distinct objects, as the host lays them out.
    - [int] indices are integers in [Z]; the host keeps them below
      [NMAX_POINT], so that [i+1] never overflows.
    - The preprocessor switches [DIMENSIONS], [GEOMETRY] and [NTRACER] are
      the fields of a [Config]; [definitions_h] is the configuration that
      the repository compiles. *)

From Stdlib Require Import ZArith Bool Lia Floats.

Set Warnings "-inexact-float".

Local Open Scope Z_scope.

(** ** Arithmetic of [double] *)

Class DoubleOps (T : Type) : Type := {
  d_add : T -> T -> T;
  d_sub : T -> T -> T;
  d_mul : T -> T -> T;
  d_div : T -> T -> T;
  d_sin : T -> T;
  d_1   : T;   (* the literal 1.0 *)
  d_2   : T;   (* the int literal 2 converted to double *)
  d_025 : T    (* the literal 0.25 *)
}.

Declare Scope dbl_scope.
Delimit Scope dbl_scope with dbl.
Infix "⊕" := d_add (at level 50, left associativity) : dbl_scope.
Infix "⊖" := d_sub (at level 50, left associativity) : dbl_scope.
Infix "⊗" := d_mul (at level 40, left associativity) : dbl_scope.
Infix "⊘" := d_div (at level 40, left associativity) : dbl_scope.

(** IEEE binary64, round to nearest even: the arithmetic of a C [double].
    The four operations and the literals are those of the primitive
    floats.  [sin] is the one operation of the kernel that IEEE 754 does
    not fix: it is the function of the C library, a parameter here.  The
    kernel calls it in spherical geometry only. *)
Definition binary64 (libm_sin : float -> float) : DoubleOps float := {|
  d_add := PrimFloat.add; d_sub := PrimFloat.sub;
  d_mul := PrimFloat.mul; d_div := PrimFloat.div;
  d_sin := libm_sin; d_1 := 1%float; d_2 := 2%float; d_025 := 0.25%float
|}.

(** A binary64 value in the format of the specification of the primitive
    floats is finite when it is neither an infinity nor NaN; it is a zero
    when it is [+0] or [-0]. *)
Definition SFfinite (v : spec_float) : bool :=
  match v with
  | S754_zero _ | S754_finite _ _ _ => true
  | _ => false
  end.

Definition SFzero (v : spec_float) : bool :=
  match v with
  | S754_zero _ => true
  | _ => false
  end.

(** The half and the double of a binary64 number that is neither zero,
    subnormal nor too large: the same mantissa with the next exponent. *)
Definition SFhalf (v : spec_float) : spec_float :=
  match v with
  | S754_finite s m e => S754_finite s m (e - 1)
  | _ => v
  end.

Definition SFdouble (v : spec_float) : spec_float :=
  match v with
  | S754_finite s m e => S754_finite s m (e + 1)
  | _ => v
  end.

(** A [double] is ample when it is finite and at least [2^-1019] in
    magnitude: three binades above the subnormal numbers, so that neither
    its half nor the rounding of a product or of a quotient that gives it
    comes near an underflow. *)
Definition ample (v : float) : bool :=
  (0x1p-1019 <=? abs v)%float && (abs v <? infinity)%float.

(** ** Arrays and loops *)

(** [a[i] = v] *)
Definition upd {V : Type} (a : Z -> V) (i : Z) (v : V) : Z -> V :=
  fun j => if j =? i then v else a j.

(** [a[i][c] = v] *)
Definition upd2 {V : Type} (a : Z -> Z -> V) (i c : Z) (v : V) : Z -> Z -> V :=
  upd a i (upd (a i) c v).

(** [n] iterations of [body], the loop variable starting at [i]. *)
Fixpoint for_loop {S : Type} (n : nat) (i : Z) (body : Z -> S -> S) (s : S) : S :=
  match n with
  | O => s
  | S n' => for_loop n' (i + 1) body (body i s)
  end.

(** [for (i = beg; i <= end; i++) body] *)
Definition for_range {S : Type} (beg end_ : Z) (body : Z -> S -> S) (s : S) : S :=
  for_loop (Z.to_nat (end_ - beg + 1)) beg body s.

(** [beg <= i <= end], as a boolean. *)
Definition in_range (beg end_ i : Z) : bool := (beg <=? i) && (i <=? end_).

(** The row that an iteration leaves at its own index, as a function of the
    row it finds there. *)
Definition row_of {V : Type} (body : Z -> (Z -> V) -> Z -> V) (i : Z) (r : V) : V :=
  body i (fun _ => r) i.

(** An iteration is local when it rewrites the entry at its own index from
    that entry alone and leaves all other entries. *)
Definition local_body {V : Type} (body : Z -> (Z -> V) -> Z -> V) : Prop :=
  forall i s j, body i s j = if j =? i then row_of body i (s i) else s j.

(** Whether the species index [trc] is visited by [n] iterations of the
    loop over the species that starts at [t0]. *)
Definition visited (t0 : Z) (n : nat) (trc : Z) : bool :=
  (t0 <=? trc) && (trc <? t0 + Z.of_nat n).

(** ** Compile-time configuration *)

(** The values of [DIMENSIONS] and of [GEOMETRY] that the source tests. *)
Inductive Dims : Type := D1 | D2 | D3.
Inductive Geometry : Type := CARTESIAN | CYLINDRICAL | POLAR | SPHERICAL.

Record Config : Type := {
  DIMENSIONS : Dims;
  GEOMETRY   : Geometry;
  NTRACER    : nat
}.

(** [src/definitions.h], lines 2, 3 and 8. *)
Definition definitions_h : Config :=
  {| DIMENSIONS := D2; GEOMETRY := CARTESIAN; NTRACER := 1 |}.

(** Modelled from the spec: the macro [DIM_EXPAND(a,b,c)] of the host
    header, which is not among the sources.  It keeps the first
    [DIMENSIONS] of its three statement arguments, in order, so that only
    the directions enabled for the number of dimensions are computed. *)
Definition DIM_EXPAND {S : Type} (d : Dims) (a b c : S -> S) (s : S) : S :=
  match d with
  | D1 => a s
  | D2 => b (a s)
  | D3 => c (b (a s))
  end.

(** Modelled from the spec: the labels of the host header, which is not
    among the sources.  The sweep directions are the first, the second and
    the third axis, and the gradient component of an axis is stored at the
    label of the axis; the density is the first primitive variable. *)
Definition IDIR : Z := 0.
Definition JDIR : Z := 1.
Definition KDIR : Z := 2.
Definition RHO  : Z := 0.

(** User-defined parameter labels, [src/definitions.h] lines 23-33. *)
Definition DEL_RHO_BY_RHO0 : Z := 0.
Definition REYNOLDS : Z := 1.
Definition AMP      : Z := 2.
Definition Y1       : Z := 3.
Definition Y2       : Z := 4.
Definition SIGMA    : Z := 5.
Definition TANH_A   : Z := 6.
Definition U_FLOW   : Z := 7.
Definition RHO0     : Z := 8.
Definition PRS0     : Z := 9.
Definition LENGTH   : Z := 10.

Section Kernel.

Context {T : Type} {ops : DoubleOps T}.
Local Open Scope dbl_scope.

(** ** Host data *)

(** The fields of the host's [Grid] that the kernel reads, each indexed
    [dir][i]. *)
Record Grid : Type := {
  dx      : Z -> Z -> T;   (* cell widths *)
  inv_dx  : Z -> Z -> T;   (* inverse cell widths *)
  inv_dxi : Z -> Z -> T;   (* inverse spacing between the centres i and i+1 *)
  x       : Z -> Z -> T;   (* cell centres *)
  xr      : Z -> Z -> T    (* right interfaces *)
}.

(** [sweep->vn], indexed [i][nv]. *)
Record Sweep : Type := {
  vn : Z -> Z -> T
}.

(** The host globals the kernel reads. *)
Record Host : Type := {
  g_dir : Z;
  g_i : Z;
  g_j : Z;
  g_k : Z;
  g_inputParam : Z -> T
}.

(** [src/definitions.h], lines 37-39. *)
Definition UNIT_LENGTH   (h : Host) : T := g_inputParam h LENGTH.
Definition UNIT_DENSITY  (h : Host) : T := g_inputParam h RHO0.
Definition UNIT_VELOCITY (h : Host) : T := g_inputParam h U_FLOW.

(** ** [GetTracerGradient] *)

(** Body of the loop of the branch [g_dir == IDIR] (source lines 149-163).
    The local scalars [dl1], [dl2], [dl3] are bound to the value they hold
    where the enabled statements use them. *)
Definition grad_body_IDIR (cfg : Config) (h : Host) (Field : Z -> Z -> Z -> T)
    (grid : Grid) (i : Z) (gradField : Z -> Z -> T) : Z -> Z -> T :=
  let j := g_j h in
  let k := g_k h in
  let rp := xr grid IDIR in
  let theta := x grid JDIR j in
  let s_1 := d_1 ⊘ d_sin theta in
  let dx2 := inv_dx grid JDIR j in
  let dx3 := inv_dx grid KDIR k in
  let dl1 := inv_dxi grid IDIR i in
  let dl2 := match GEOMETRY cfg with
             | POLAR | SPHERICAL => dx2 ⊘ rp i
             | _ => dx2
             end in
  let dl3 := match GEOMETRY cfg with
             | SPHERICAL => dx3 ⊗ s_1 ⊘ rp i
             | _ => dx3
             end in
  DIM_EXPAND (DIMENSIONS cfg)
    (fun gF => upd2 gF i 0 ((Field k j (i + 1) ⊖ Field k j i) ⊗ dl1))
    (fun gF => upd2 gF i 1
       (d_025 ⊗ (Field k (j + 1) i ⊕ Field k (j + 1) (i + 1)
                 ⊖ Field k (j - 1) i ⊖ Field k (j - 1) (i + 1)) ⊗ dl2))
    (fun gF => upd2 gF i 2
       (d_025 ⊗ (Field (k + 1) j i ⊕ Field (k + 1) j (i + 1)
                 ⊖ Field (k - 1) j i ⊖ Field (k - 1) j (i + 1)) ⊗ dl3))
    gradField.

(** Body of the loop of the branch [g_dir == JDIR] (source lines 175-190). *)
Definition grad_body_JDIR (cfg : Config) (h : Host) (Field : Z -> Z -> Z -> T)
    (grid : Grid) (j : Z) (gradField : Z -> Z -> T) : Z -> Z -> T :=
  let i := g_i h in
  let k := g_k h in
  let r := x grid IDIR in
  let r_1 := d_1 ⊘ r i in
  let dx1 := inv_dx grid IDIR i in
  let dx3 := inv_dx grid KDIR k in
  let dl1 := dx1 in
  let dl2 := match GEOMETRY cfg with
             | POLAR | SPHERICAL => inv_dxi grid JDIR j ⊗ r_1
             | _ => inv_dxi grid JDIR j
             end in
  let dl3 := match GEOMETRY cfg with
             | SPHERICAL => let theta := xr grid JDIR j in
                            dx3 ⊗ r_1 ⊘ d_sin theta
             | _ => dx3
             end in
  DIM_EXPAND (DIMENSIONS cfg)
    (fun gF => upd2 gF j 0
       (d_025 ⊗ (Field k j (i + 1) ⊕ Field k (j + 1) (i + 1)
                 ⊖ Field k j (i - 1) ⊖ Field k (j + 1) (i - 1)) ⊗ dl1))
    (fun gF => upd2 gF j 1 ((Field k (j + 1) i ⊖ Field k j i) ⊗ dl2))
    (fun gF => upd2 gF j 2
       (d_025 ⊗ (Field (k + 1) j i ⊕ Field (k + 1) (j + 1) i
                 ⊖ Field (k - 1) j i ⊖ Field (k - 1) (j + 1) i) ⊗ dl3))
    gradField.

(** Body of the loop of the branch [g_dir == KDIR] (source lines 207-215);
    this branch is not wrapped in [DIM_EXPAND]. *)
Definition grad_body_KDIR (cfg : Config) (h : Host) (Field : Z -> Z -> Z -> T)
    (grid : Grid) (k : Z) (gradField : Z -> Z -> T) : Z -> Z -> T :=
  let i := g_i h in
  let j := g_j h in
  let r := x grid IDIR in
  let r_1 := d_1 ⊘ r i in
  let theta := x grid JDIR j in
  let s_1 := d_1 ⊘ d_sin theta in
  let dl1 := inv_dx grid IDIR i in
  let dl2 := match GEOMETRY cfg with
             | POLAR | SPHERICAL => inv_dx grid JDIR j ⊗ r_1
             | _ => inv_dx grid JDIR j
             end in
  let dl3 := match GEOMETRY cfg with
             | SPHERICAL => inv_dxi grid KDIR k ⊗ (r_1 ⊗ s_1)
             | _ => inv_dxi grid KDIR k
             end in
  let gF0 := upd2 gradField k 0
       (d_025 ⊗ (Field k j (i + 1) ⊕ Field (k + 1) j (i + 1)
                 ⊖ Field k j (i - 1) ⊖ Field (k + 1) j (i - 1)) ⊗ dl1) in
  let gF1 := upd2 gF0 k 1
       (d_025 ⊗ (Field k (j + 1) i ⊕ Field (k + 1) (j + 1) i
                 ⊖ Field k (j - 1) i ⊖ Field (k + 1) (j - 1) i) ⊗ dl2) in
  upd2 gF1 k 2 ((Field (k + 1) j i ⊖ Field k j i) ⊗ dl3).

(** [GetTracerGradient (Field, gradField, beg, end, grid)]: the content of
    [gradField] when the function returns. *)
Definition GetTracerGradient (cfg : Config) (h : Host)
    (Field : Z -> Z -> Z -> T) (gradField : Z -> Z -> T)
    (beg end_ : Z) (grid : Grid) : Z -> Z -> T :=
  if g_dir h =? IDIR then
    for_range beg end_ (grad_body_IDIR cfg h Field grid) gradField
  else if g_dir h =? JDIR then
    for_range beg end_ (grad_body_JDIR cfg h Field grid) gradField
  else if g_dir h =? KDIR then
    for_range beg end_ (grad_body_KDIR cfg h Field grid) gradField
  else gradField.

(** ** [RHS_TRACER_Flux] *)

(** The arrays the call can reach.  [gradTRC] is the function's static
    pointer: [None] is [NULL]. *)
Record Memory : Type := {
  TracerField : Z -> Z -> Z -> Z -> T;    (* [trc][k][j][i] *)
  sweep       : Sweep;
  grid        : Grid;
  tracer_flux : Z -> Z -> T;              (* [i][trc] *)
  gradTRC     : option (Z -> Z -> Z -> T) (* [trc][i][component] *)
}.

(** Source lines 47-50. *)
Definition del_u (h : Host) : T := d_2 ⊗ g_inputParam h U_FLOW.
Definition chi (h : Host) : T :=
  g_inputParam h LENGTH ⊗ del_u h ⊘ g_inputParam h REYNOLDS.
Definition nu_dye (h : Host) : T :=
  chi h ⊘ (UNIT_LENGTH h ⊗ UNIT_VELOCITY h).

(** Source line 71: the interface value [vi[nv]] at cell [i].  [NVAR_LOOP]
    fills every [nv] below [NVAR]; [RHO], the only entry read afterwards,
    is one of them. *)
Definition vi (h : Host) (vc : Z -> Z -> T) (g : Grid) (i nv : Z) : T :=
  (vc i nv ⊗ dx g (g_dir h) i ⊕ vc (i + 1) nv ⊗ dx g (g_dir h) (i + 1))
  ⊘ (dx g (g_dir h) i ⊕ dx g (g_dir h) (i + 1)).

(** Source lines 67-77: the loop over the cells, for the species [trc]. *)
Definition flux_body (h : Host) (vc : Z -> Z -> T) (g : Grid)
    (gradTRC_trc : Z -> Z -> T) (trc : Z) (i : Z)
    (flux : Z -> Z -> T) : Z -> Z -> T :=
  let Flux := vi h vc g i RHO ⊗ nu_dye h ⊗ gradTRC_trc i (g_dir h) in
  upd2 flux i trc Flux.

(** Source lines 65-78: one iteration of the loop over the species, on the
    pair of the flux array and the gradient buffer. *)
Definition trc_body (cfg : Config) (h : Host) (m : Memory) (beg end_ : Z)
    (trc : Z) (st : (Z -> Z -> T) * (Z -> Z -> Z -> T))
    : (Z -> Z -> T) * (Z -> Z -> Z -> T) :=
  let gT := upd (snd st) trc
              (GetTracerGradient cfg h (TracerField m trc) (snd st trc)
                 beg end_ (grid m)) in
  (for_range beg end_ (flux_body h (vn (sweep m)) (grid m) (gT trc) trc) (fst st),
   gT).

(** The gradient buffer the call works on: the static one, or on the first
    call the block [fresh] that [ARRAY_3D] returns. *)
Definition buffer (fresh : Z -> Z -> Z -> T) (m : Memory) : Z -> Z -> Z -> T :=
  match gradTRC m with
  | None => fresh
  | Some b => b
  end.

(** [RHS_TRACER_Flux (TracerField, sweep, tracer_flux, beg, end, grid)]:
    the memory when the function returns. *)
Definition RHS_TRACER_Flux (cfg : Config) (h : Host)
    (fresh : Z -> Z -> Z -> T) (m : Memory) (beg end_ : Z) : Memory :=
  let st := for_loop (NTRACER cfg) 0 (trc_body cfg h m beg end_)
              (tracer_flux m, buffer fresh m) in
  {| TracerField := TracerField m;
     sweep := sweep m;
     grid := grid m;
     tracer_flux := fst st;
     gradTRC := Some (snd st) |}.

End Kernel.

Arguments Grid T : clear implicits.
Arguments Sweep T : clear implicits.
Arguments Host T : clear implicits.
Arguments Memory T : clear implicits.

(** ** Auxiliary notions for the statements *)

(** The memory [m] with the static pointer replaced. *)
Definition set_gradTRC {T : Type} (m : Memory T)
    (b : option (Z -> Z -> Z -> T)) : Memory T :=
  {| TracerField := TracerField m;
     sweep := sweep m;
     grid := grid m;
     tracer_flux := tracer_flux m;
     gradTRC := b |}.

(** The index along the sweep direction [dir] of the cell [k][j][i]. *)
Definition sweep_index (dir k j i : Z) : Z :=
  if dir =? IDIR then i else if dir =? JDIR then j else k.

(** Two grids agree where a sweep over [beg..end] reads them: the widths
    of the sweep axis at [beg..end+1], its [inv_dxi] at [beg..end], and the
    tables indexed by a position ([inv_dx], [x], [xr]). *)
Definition grid_agree {T : Type} (h : Host T) (beg end_ : Z)
    (g1 g2 : Grid T) : Prop :=
  (forall n, beg <= n <= end_ + 1 -> dx g1 (g_dir h) n = dx g2 (g_dir h) n) /\
  (forall n, beg <= n <= end_ -> inv_dxi g1 (g_dir h) n = inv_dxi g2 (g_dir h) n) /\
  (forall d n, inv_dx g1 d n = inv_dx g2 d n) /\
  (forall d n, x g1 d n = x g2 d n) /\
  (forall d n, xr g1 d n = xr g2 d n).

(** Two fields agree on the cells whose index along the sweep axis is in
    [beg..end+1]. *)
Definition field_agree {T : Type} (h : Host T) (beg end_ : Z)
    (F1 F2 : Z -> Z -> Z -> T) : Prop :=
  forall k j i, beg <= sweep_index (g_dir h) k j i <= end_ + 1 ->
                F1 k j i = F2 k j i.

(** The host state with the input parameter [p] set to [v]. *)
Definition set_param {T : Type} (h : Host T) (p : Z) (v : T) : Host T :=
  {| g_dir := g_dir h; g_i := g_i h; g_j := g_j h; g_k := g_k h;
     g_inputParam := upd (g_inputParam h) p v |}.

(** Whether [GetTracerGradient] assigns the component [c] in a sweep along
    [dir]: the branches [IDIR] and [JDIR] assign the components below
    [DIMENSIONS], the branch [KDIR] assigns the three of them. *)
Definition computed (cfg : Config) (dir c : Z) : bool :=
  if (dir =? IDIR) || (dir =? JDIR) then
    match DIMENSIONS cfg with
    | D1 => c =? 0
    | D2 => (c =? 0) || (c =? 1)
    | D3 => (c =? 0) || (c =? 1) || (c =? 2)
    end
  else if dir =? KDIR then (c =? 0) || (c =? 1) || (c =? 2)
  else false.

(** The end-to-end run of the specification, in binary64: Cartesian grid
    of spacing [0.01], tracer [1] up to cell [2] and [2] beyond along the
    first axis, density [1], [REYNOLDS = 1e4], [U_FLOW = LENGTH = 1]. *)
Module Scenario.

(** The run is Cartesian, where [sin] is not called.  The instance of the
    run answers NaN for it, so that a value that depended on the sine
    would be NaN. *)
Definition ops : DoubleOps float := binary64 (fun _ => nan).

(** The integer [n] as a [double]. *)
Definition of_Z (n : Z) : float :=
  match n with
  | Z0 => 0%float
  | Zpos p => of_uint63 (Uint63.of_pos p)
  | Zneg p => (- of_uint63 (Uint63.of_pos p))%float
  end.

Definition params : Z -> float :=
  fun p => if p =? REYNOLDS then 10000%float else 1%float.

Definition host (dir : Z) : Host float :=
  {| g_dir := dir; g_i := 2; g_j := 2; g_k := 2; g_inputParam := params |}.

Definition uniform_grid : Grid float :=
  {| dx := fun _ _ => 0.01%float;
     inv_dx := fun _ _ => 100%float;
     inv_dxi := fun _ _ => 100%float;
     x := fun _ n => (0.01 * of_Z n + 0.005)%float;
     xr := fun _ n => (0.01 * of_Z n + 0.01)%float |}.

Definition step_field : Z -> Z -> Z -> Z -> float :=
  fun _ _ _ i => if i <=? 2 then 1%float else 2%float.

Definition uniform_field : Z -> Z -> Z -> Z -> float :=
  fun _ _ _ _ => 1%float.

Definition unit_density : Sweep float := {| vn := fun _ _ => 1%float |}.

(** A block filled with the value [7], and a flux array filled with the
    sentinel [-1]. *)
Definition sevens : Z -> Z -> Z -> float := fun _ _ _ => 7%float.
Definition sentinel : Z -> Z -> float := fun _ _ => (-1)%float.

Definition mem (F : Z -> Z -> Z -> Z -> float) : Memory float :=
  {| TracerField := F; sweep := unit_density; grid := uniform_grid;
     tracer_flux := sentinel; gradTRC := None |}.



(** A uniform grid of spacing [49], with the inverse spacing that the
    division [1/49] gives. *)
Definition wide_grid : Grid float :=
  {| dx := fun _ _ => 49%float;
     inv_dx := fun _ _ => (1 / 49)%float;
     inv_dxi := fun _ _ => (1 / 49)%float;
     x := fun _ n => (49 * of_Z n)%float;
     xr := fun _ n => (49 * of_Z n + 24.5)%float |}.


(** The uniform field of the largest power of two, [2^1023]. *)
Definition huge_field : Z -> Z -> Z -> Z -> float :=
  fun _ _ _ _ => 0x1p1023%float.

(** The run with the density [3]. *)
Definition dense_mem (F : Z -> Z -> Z -> Z -> float) : Memory float :=
  {| TracerField := F; sweep := {| vn := fun _ _ => 3%float |};
     grid := uniform_grid; tracer_flux := sentinel; gradTRC := None |}.

(** The run with the density [2^1023] on the wide grid. *)
Definition heavy_mem (F : Z -> Z -> Z -> Z -> float) : Memory float :=
  {| TracerField := F; sweep := {| vn := fun _ _ => 0x1p1023%float |};
     grid := wide_grid; tracer_flux := sentinel; gradTRC := None |}.

(** The step field, changed beyond the cell [3]. *)
Definition far_field : Z -> Z -> Z -> Z -> float :=
  fun _ _ _ i => if i <=? 2 then 1%float else if i <=? 3 then 2%float else 9%float.

(** A field that grows by [2] from a cell to the next along the second
    axis. *)
Definition ramp_field : Z -> Z -> Z -> Z -> float :=
  fun _ _ j _ => (2 * of_Z j)%float.

(** A field with two equal cells, [2] and [3], along the first axis. *)
Definition plateau_field : Z -> Z -> Z -> Z -> float :=
  fun _ k j i =>
    if (i =? 2) || (i =? 3) then 5%float else (of_Z i * of_Z j + of_Z k)%float.

(** The Cartesian configuration in three dimensions. *)
Definition three_dimensional : Config :=
  {| DIMENSIONS := D3; GEOMETRY := CARTESIAN; NTRACER := 1 |}.

(** The Cartesian configuration in one dimension. *)
Definition one_dimensional : Config :=
  {| DIMENSIONS := D1; GEOMETRY := CARTESIAN; NTRACER := 1 |}.

(** A grid of polar or spherical coordinates: radii [n + 1] at the centres
    and [n + 2] at the interfaces. *)
Definition curved_grid : Grid float :=
  {| dx := fun _ _ => 1%float;
     inv_dx := fun _ _ => 1%float;
     inv_dxi := fun _ _ => 1%float;
     x := fun _ n => of_Z (n + 1);
     xr := fun _ n => of_Z (n + 2) |}.

(** The uniform grid with other coordinates. *)
Definition other_coordinates : Grid float :=
  {| dx := fun _ _ => 0.01%float;
     inv_dx := fun _ _ => 100%float;
     inv_dxi := fun _ _ => 100%float;
     x := fun _ _ => 0%float;
     xr := fun _ _ => 0%float |}.

(** The uniform grid with other metrics away from the cell [2] of the
    sweep and from the global indices. *)
Definition other_metrics : Grid float :=
  {| dx := fun _ _ => 0.01%float;
     inv_dx := fun _ p => if p =? 2 then 100%float else 3%float;
     inv_dxi := fun _ p => if p =? 2 then 100%float else 3%float;
     x := fun _ p => if p =? 2 then (0.01 * of_Z 2 + 0.005)%float else 3%float;
     xr := fun _ p => if p =? 2 then (0.01 * of_Z 2 + 0.01)%float else 3%float |}.

Definition other_metrics_mem (F : Z -> Z -> Z -> Z -> float) : Memory float :=
  {| TracerField := F; sweep := unit_density; grid := other_metrics;
     tracer_flux := sentinel; gradTRC := None |}.

End Scenario.

(** ** Notions for the further properties *)

(** The host state with one of the global cell indices replaced. *)
Definition set_g_i {T : Type} (h : Host T) (v : Z) : Host T :=
  {| g_dir := g_dir h; g_i := v; g_j := g_j h; g_k := g_k h;
     g_inputParam := g_inputParam h |}.

Definition set_g_j {T : Type} (h : Host T) (v : Z) : Host T :=
  {| g_dir := g_dir h; g_i := g_i h; g_j := v; g_k := g_k h;
     g_inputParam := g_inputParam h |}.

Definition set_g_k {T : Type} (h : Host T) (v : Z) : Host T :=
  {| g_dir := g_dir h; g_i := g_i h; g_j := g_j h; g_k := v;
     g_inputParam := g_inputParam h |}.

(** The configuration with another geometry. *)
Definition set_GEOMETRY (cfg : Config) (g : Geometry) : Config :=
  {| DIMENSIONS := DIMENSIONS cfg; GEOMETRY := g; NTRACER := NTRACER cfg |}.

(** The memory with another tracer field. *)
Definition set_TracerField {T : Type} (m : Memory T)
    (F : Z -> Z -> Z -> Z -> T) : Memory T :=
  {| TracerField := F;
     sweep := sweep m;
     grid := grid m;
     tracer_flux := tracer_flux m;
     gradTRC := gradTRC m |}.

(** How far from the global index the stencil of a sweep along [dir]
    reaches along the transverse [axis]: one cell where the component of
    that axis is computed, none where it is not. *)
Definition reach (cfg : Config) (dir axis : Z) : Z :=
  if dir =? KDIR then 1
  else match DIMENSIONS cfg with
       | D1 => if axis =? IDIR then 1 else 0
       | D2 => if axis =? KDIR then 0 else 1
       | D3 => 1
       end.

(** The cells [k][j][i] of the stencil at the index [n] of the sweep: the
    index along the sweep axis is [n] or [n+1], and the cell is displaced
    from the global indices along one transverse axis at most, within
    [reach]. *)
Definition in_stencil {T : Type} (cfg : Config) (h : Host T) (n k j i : Z) : Prop :=
  let di := i - g_i h in
  let dj := j - g_j h in
  let dk := k - g_k h in
  if g_dir h =? IDIR then
    (i = n \/ i = n + 1) /\
    ((Z.abs dj <= reach cfg IDIR JDIR /\ dk = 0) \/
     (dj = 0 /\ Z.abs dk <= reach cfg IDIR KDIR))
  else if g_dir h =? JDIR then
    (j = n \/ j = n + 1) /\
    ((Z.abs di <= reach cfg JDIR IDIR /\ dk = 0) \/
     (di = 0 /\ Z.abs dk <= reach cfg JDIR KDIR))
  else if g_dir h =? KDIR then
    (k = n \/ k = n + 1) /\
    ((Z.abs di <= reach cfg KDIR IDIR /\ dj = 0) \/
     (di = 0 /\ Z.abs dj <= reach cfg KDIR JDIR))
  else False.

(** The value of the field at the index [n] of the sweep line, the
    transverse indices being the global ones. *)
Definition along {T : Type} (h : Host T) (F : Z -> Z -> Z -> T) (n : Z) : T :=
  if g_dir h =? IDIR then F (g_k h) (g_j h) n
  else if g_dir h =? JDIR then F (g_k h) n (g_i h)
  else F n (g_j h) (g_i h).

(** The global index along [axis]. *)
Definition global_index {T : Type} (h : Host T) (axis : Z) : Z :=
  if axis =? IDIR then g_i h else if axis =? JDIR then g_j h else g_k h.

(** Two grids agree on the metrics that the gradient at the index [n] of
    the sweep is made of: [inv_dxi] and the interface coordinate [xr] of
    the sweep axis at [n], and, for each of the two transverse axes, the
    inverse width [inv_dx] and the centre coordinate [x] at the global
    index of that axis. *)
Definition metrics_agree {T : Type} (h : Host T) (n : Z) (g1 g2 : Grid T) : Prop :=
  inv_dxi g1 (g_dir h) n = inv_dxi g2 (g_dir h) n /\
  xr g1 (g_dir h) n = xr g2 (g_dir h) n /\
  (forall axis, 0 <= axis <= 2 -> axis <> g_dir h ->
     inv_dx g1 axis (global_index h axis) = inv_dx g2 axis (global_index h axis) /\
     x g1 axis (global_index h axis) = x g2 axis (global_index h axis)).

Section Metric.

Context {T : Type} {ops : DoubleOps T}.
Local Open Scope dbl_scope.

(** The finite difference that a sweep takes for the component [c] at the
    index [n]: the difference of the next and the current cell for the
    component of the sweep axis, [0.25] times the four-point difference
    across the axis [c] otherwise. *)
Definition difference (h : Host T) (F : Z -> Z -> Z -> T) (n c : Z) : T :=
  let i := g_i h in
  let j := g_j h in
  let k := g_k h in
  if g_dir h =? IDIR then
    if c =? 0 then F k j (n + 1) ⊖ F k j n
    else if c =? 1 then
      d_025 ⊗ (F k (j + 1) n ⊕ F k (j + 1) (n + 1)
               ⊖ F k (j - 1) n ⊖ F k (j - 1) (n + 1))
    else
      d_025 ⊗ (F (k + 1) j n ⊕ F (k + 1) j (n + 1)
               ⊖ F (k - 1) j n ⊖ F (k - 1) j (n + 1))
  else if g_dir h =? JDIR then
    if c =? 0 then
      d_025 ⊗ (F k n (i + 1) ⊕ F k (n + 1) (i + 1)
               ⊖ F k n (i - 1) ⊖ F k (n + 1) (i - 1))
    else if c =? 1 then F k (n + 1) i ⊖ F k n i
    else
      d_025 ⊗ (F (k + 1) n i ⊕ F (k + 1) (n + 1) i
               ⊖ F (k - 1) n i ⊖ F (k - 1) (n + 1) i)
  else
    if c =? 0 then
      d_025 ⊗ (F n j (i + 1) ⊕ F (n + 1) j (i + 1)
               ⊖ F n j (i - 1) ⊖ F (n + 1) j (i - 1))
    else if c =? 1 then
      d_025 ⊗ (F n (j + 1) i ⊕ F (n + 1) (j + 1) i
               ⊖ F n (j - 1) i ⊖ F (n + 1) (j - 1) i)
    else F (n + 1) j i ⊖ F n j i.

(** The metric of the component [c] in Cartesian geometry: the inverse
    spacing of the centres along the sweep axis, the inverse width of the
    cell across it. *)
Definition cartesian_metric (h : Host T) (g : Grid T) (n c : Z) : T :=
  if c =? g_dir h then inv_dxi g c n else inv_dx g c (global_index h c).

(** The metric in polar geometry: the one of the angular component is
    divided by the radius, taken at the interface [xr] in a radial sweep
    and at the cell centre [x] otherwise. *)
Definition polar_metric (h : Host T) (g : Grid T) (n c : Z) : T :=
  if c =? 1 then
    if g_dir h =? IDIR then inv_dx g JDIR (g_j h) ⊘ xr g IDIR n
    else if g_dir h =? JDIR then inv_dxi g JDIR n ⊗ (d_1 ⊘ x g IDIR (g_i h))
    else inv_dx g JDIR (g_j h) ⊗ (d_1 ⊘ x g IDIR (g_i h))
  else cartesian_metric h g n c.

(** The metric in spherical geometry: the one of the colatitude is divided
    by the radius as in polar geometry, the azimuthal one by the radius and
    by the sine of the colatitude. *)
Definition spherical_metric (h : Host T) (g : Grid T) (n c : Z) : T :=
  if c =? 2 then
    if g_dir h =? IDIR then
      inv_dx g KDIR (g_k h) ⊗ (d_1 ⊘ d_sin (x g JDIR (g_j h))) ⊘ xr g IDIR n
    else if g_dir h =? JDIR then
      inv_dx g KDIR (g_k h) ⊗ (d_1 ⊘ x g IDIR (g_i h)) ⊘ d_sin (xr g JDIR n)
    else
      inv_dxi g KDIR n
      ⊗ ((d_1 ⊘ x g IDIR (g_i h)) ⊗ (d_1 ⊘ d_sin (x g JDIR (g_j h))))
  else polar_metric h g n c.

End Metric.

(** ** Tactics *)

(** Unfold the operations of binary64. *)
Ltac to_float :=
  cbn [d_add d_sub d_mul d_div d_sin d_1 d_2 d_025 binary64] in *.

Ltac dir_cases h :=
  let Hc := fresh "Hc" in
  let E := fresh "E" in
  assert (Hc : g_dir h = IDIR \/ g_dir h = JDIR \/ g_dir h = KDIR)
    by (unfold IDIR, JDIR, KDIR; lia);
  destruct Hc as [E|[E|E]].

(** ** Facts on arrays and loops *)

Section LoopFacts.

Context {V : Type}.

Lemma upd_same (a : Z -> V) (i : Z) (v : V) : upd a i v i = v.
Proof. unfold upd. now rewrite Z.eqb_refl. Qed.

Lemma upd_other (a : Z -> V) (i j : Z) (v : V) : j <> i -> upd a i v j = a j.
Proof. intros Hne. unfold upd. apply Z.eqb_neq in Hne. now rewrite Hne. Qed.

Lemma in_range_true (beg end_ i : Z) :
  in_range beg end_ i = true <-> beg <= i <= end_.
Proof. unfold in_range. rewrite andb_true_iff, !Z.leb_le. tauto. Qed.

Lemma in_range_false (beg end_ i : Z) :
  in_range beg end_ i = false <-> ~ (beg <= i <= end_).
Proof.
  rewrite <- in_range_true. destruct (in_range beg end_ i); split; congruence.
Qed.


Lemma for_loop_local (body : Z -> (Z -> V) -> Z -> V) :
  local_body body ->
  forall (n : nat) (i0 : Z) (s : Z -> V) (j : Z),
    for_loop n i0 body s j =
    if (i0 <=? j) && (j <? i0 + Z.of_nat n) then row_of body j (s j) else s j.
Proof.
  intros Hloc n. induction n as [|n IH]; intros i0 s j.
  - cbn [for_loop]. rewrite Z.add_0_r.
    destruct (i0 <=? j) eqn:E1, (j <? i0) eqn:E2; cbn; try reflexivity.
    apply Z.leb_le in E1. apply Z.ltb_lt in E2. lia.
  - cbn [for_loop]. rewrite IH, (Hloc i0 s j).
    destruct (j =? i0) eqn:Eji.
    + apply Z.eqb_eq in Eji. subst j.
      replace (i0 + 1 <=? i0) with false by (symmetry; apply Z.leb_gt; lia).
      replace (i0 <=? i0) with true by (symmetry; apply Z.leb_le; lia).
      replace (i0 <? i0 + Z.of_nat (S n)) with true
        by (symmetry; apply Z.ltb_lt; lia).
      reflexivity.
    + apply Z.eqb_neq in Eji.
      destruct (i0 + 1 <=? j) eqn:E1.
      * apply Z.leb_le in E1.
        replace (i0 <=? j) with true by (symmetry; apply Z.leb_le; lia).
        replace (j <? i0 + Z.of_nat (S n)) with (j <? i0 + 1 + Z.of_nat n)
          by (f_equal; lia).
        reflexivity.
      * apply Z.leb_gt in E1.
        replace (i0 <=? j) with false by (symmetry; apply Z.leb_gt; lia).
        reflexivity.
Qed.

Lemma for_range_local (body : Z -> (Z -> V) -> Z -> V) :
  local_body body ->
  forall (beg end_ : Z) (s : Z -> V) (j : Z),
    for_range beg end_ body s j =
    if in_range beg end_ j then row_of body j (s j) else s j.
Proof.
  intros Hloc beg end_ s j. unfold for_range, in_range.
  rewrite (for_loop_local body Hloc).
  destruct (beg <=? j) eqn:E1; cbn [andb]; [|reflexivity].
  replace (j <? beg + Z.of_nat (Z.to_nat (end_ - beg + 1))) with (j <=? end_);
    [reflexivity|].
  apply Z.leb_le in E1.
  destruct (j <=? end_) eqn:E2; symmetry.
  - apply Z.leb_le in E2. apply Z.ltb_lt. lia.
  - apply Z.leb_gt in E2. apply Z.ltb_ge. lia.
Qed.

End LoopFacts.

(** ** Facts on [GetTracerGradient] *)

Section GradientFacts.

Context {T : Type} {ops : DoubleOps T}.
Local Open Scope dbl_scope.

Variables (cfg : Config) (h : Host T) (Field : Z -> Z -> Z -> T) (grid : Grid T).

Ltac local_tac :=
  intros i s j;
  unfold row_of, DIM_EXPAND, upd2; cbv zeta;
  destruct (DIMENSIONS cfg);
  (destruct (Z.eqb_spec j i) as [->|Hne];
   [ rewrite ?upd_same; reflexivity
   | rewrite ?(upd_other _ _ _ _ Hne); reflexivity ]).

Lemma grad_body_IDIR_local : local_body (grad_body_IDIR cfg h Field grid).
Proof. unfold local_body, grad_body_IDIR. local_tac. Qed.

Lemma grad_body_JDIR_local : local_body (grad_body_JDIR cfg h Field grid).
Proof. unfold local_body, grad_body_JDIR. local_tac. Qed.

Lemma grad_body_KDIR_local : local_body (grad_body_KDIR cfg h Field grid).
Proof.
  unfold local_body, grad_body_KDIR. intros i s j.
  unfold row_of, upd2; cbv zeta.
  destruct (Z.eqb_spec j i) as [->|Hne].
  - rewrite ?upd_same. reflexivity.
  - rewrite ?(upd_other _ _ _ _ Hne). reflexivity.
Qed.

(** The row of [gradField] at index [n] after the call. *)
Lemma GetTracerGradient_row (gradField : Z -> Z -> T) (beg end_ n : Z) :
  GetTracerGradient cfg h Field gradField beg end_ grid n =
  if in_range beg end_ n then
    if g_dir h =? IDIR then row_of (grad_body_IDIR cfg h Field grid) n (gradField n)
    else if g_dir h =? JDIR then row_of (grad_body_JDIR cfg h Field grid) n (gradField n)
    else if g_dir h =? KDIR then row_of (grad_body_KDIR cfg h Field grid) n (gradField n)
    else gradField n
  else gradField n.
Proof.
  unfold GetTracerGradient.
  destruct (g_dir h =? IDIR);
    [rewrite (for_range_local _ grad_body_IDIR_local); reflexivity|].
  destruct (g_dir h =? JDIR);
    [rewrite (for_range_local _ grad_body_JDIR_local); reflexivity|].
  destruct (g_dir h =? KDIR);
    [rewrite (for_range_local _ grad_body_KDIR_local); reflexivity|].
  now destruct (in_range beg end_ n).
Qed.

Lemma GetTracerGradient_outside (gradField : Z -> Z -> T) (beg end_ n : Z) :
  ~ (beg <= n <= end_) ->
  GetTracerGradient cfg h Field gradField beg end_ grid n = gradField n.
Proof.
  intros Hout. rewrite GetTracerGradient_row.
  apply in_range_false in Hout. now rewrite Hout.
Qed.

End GradientFacts.

(** Expose the row written at an index of the range, in the branch [E]. *)
Ltac open_row Hin E :=
  rewrite GetTracerGradient_row;
  rewrite (proj2 (in_range_true _ _ _) Hin), E;
  cbn [Z.eqb IDIR JDIR KDIR Pos.eqb];
  unfold row_of, grad_body_IDIR, grad_body_JDIR, grad_body_KDIR, DIM_EXPAND, upd2;
  cbv zeta.

(** ** Facts on [RHS_TRACER_Flux] *)

Section FluxFacts.

Context {T : Type} {ops : DoubleOps T}.
Local Open Scope dbl_scope.

Variables (cfg : Config) (h : Host T).

Lemma flux_body_local (vc : Z -> Z -> T) (g : Grid T) (gT : Z -> Z -> T) (trc : Z) :
  local_body (flux_body h vc g gT trc).
Proof.
  intros i s j. unfold row_of, flux_body, upd2; cbv zeta.
  destruct (Z.eqb_spec j i) as [->|Hne].
  - rewrite !upd_same. reflexivity.
  - rewrite (upd_other _ _ _ _ Hne). reflexivity.
Qed.

(** The flux array after the loop over the cells, for one species. *)
Lemma flux_loop_entry (vc : Z -> Z -> T) (g : Grid T) (gT : Z -> Z -> T)
    (trc beg end_ : Z) (flux : Z -> Z -> T) (i c : Z) :
  for_range beg end_ (flux_body h vc g gT trc) flux i c =
  if in_range beg end_ i && (c =? trc)
  then vi h vc g i RHO ⊗ nu_dye h ⊗ gT i (g_dir h)
  else flux i c.
Proof.
  rewrite (for_range_local _ (flux_body_local vc g gT trc)).
  destruct (in_range beg end_ i); cbn [andb]; [|reflexivity].
  unfold row_of, flux_body, upd2. rewrite upd_same.
  unfold upd. reflexivity.
Qed.


Lemma visited_S (t0 : Z) (n : nat) (trc : Z) :
  visited t0 (S n) trc = (trc =? t0) || visited (t0 + 1) n trc.
Proof.
  unfold visited.
  destruct (Z.eqb_spec trc t0), (Z.leb_spec t0 trc), (Z.ltb_spec trc (t0 + Z.of_nat (S n))),
    (Z.leb_spec (t0 + 1) trc), (Z.ltb_spec trc (t0 + 1 + Z.of_nat n)); cbn; try reflexivity; lia.
Qed.

Lemma visited_next_self (t0 : Z) (n : nat) : visited (t0 + 1) n t0 = false.
Proof.
  unfold visited. destruct (Z.leb_spec (t0 + 1) t0); [lia|reflexivity].
Qed.

Variables (m : Memory T) (beg end_ : Z).

(** The gradient and the flux that the iteration for [trc] computes from
    the buffer [grad]. *)
Let G (grad : Z -> Z -> Z -> T) (trc : Z) : Z -> Z -> T :=
  GetTracerGradient cfg h (TracerField m trc) (grad trc) beg end_ (grid m).

Lemma trc_loop_state (n : nat) :
  forall (t0 : Z) (flux : Z -> Z -> T) (grad : Z -> Z -> Z -> T),
    let st := for_loop n t0 (trc_body cfg h m beg end_) (flux, grad) in
    (forall trc, snd st trc = if visited t0 n trc then G grad trc else grad trc) /\
    (forall i trc,
        fst st i trc =
        if in_range beg end_ i && visited t0 n trc
        then vi h (vn (sweep m)) (grid m) i RHO ⊗ nu_dye h ⊗ G grad trc i (g_dir h)
        else flux i trc).
Proof.
  induction n as [|n IH]; intros t0 flux grad st.
  - subst st. cbn [for_loop fst snd]. split.
    + intros trc. unfold visited. rewrite Z.add_0_r.
      destruct (Z.leb_spec t0 trc), (Z.ltb_spec trc t0); cbn; try reflexivity; lia.
    + intros i trc. unfold visited. rewrite Z.add_0_r.
      destruct (Z.leb_spec t0 trc), (Z.ltb_spec trc t0); cbn;
        rewrite ?andb_false_r; try reflexivity; lia.
  - subst st. cbn [for_loop]. unfold trc_body at 2. cbn [fst snd].
    match goal with
    | |- context [for_loop n (t0 + 1) _ (?f1, ?g1)] =>
        destruct (IH (t0 + 1) f1 g1) as [Hg Hf]
    end.
    cbv zeta in Hg, Hf. split.
    + intros trc. rewrite Hg, visited_S.
      destruct (Z.eqb_spec trc t0) as [->|Hne]; cbn [orb].
      * rewrite visited_next_self, upd_same. reflexivity.
      * unfold G. rewrite (upd_other _ _ _ _ Hne). reflexivity.
    + intros i trc. rewrite Hf, visited_S, flux_loop_entry.
      destruct (Z.eqb_spec trc t0) as [->|Hne]; cbn [orb].
      * rewrite visited_next_self, upd_same, !andb_false_r, !andb_true_r.
        reflexivity.
      * unfold G. rewrite (upd_other _ _ _ _ Hne), !andb_false_r.
        reflexivity.
Qed.

End FluxFacts.

Section CallFacts.

Context {T : Type} {ops : DoubleOps T}.
Local Open Scope dbl_scope.

Variables (cfg : Config) (h : Host T) (fresh : Z -> Z -> Z -> T).
Variables (m : Memory T) (beg end_ : Z).

Lemma visited_all (trc : Z) :
  visited 0 (NTRACER cfg) trc = true <-> 0 <= trc < Z.of_nat (NTRACER cfg).
Proof.
  unfold visited. rewrite andb_true_iff, Z.leb_le, Z.ltb_lt. lia.
Qed.

(** Every entry of the flux array when [RHS_TRACER_Flux] returns. *)
Lemma RHS_TRACER_Flux_entry (i trc : Z) :
  tracer_flux (RHS_TRACER_Flux cfg h fresh m beg end_) i trc =
  if in_range beg end_ i && visited 0 (NTRACER cfg) trc
  then vi h (vn (sweep m)) (grid m) i RHO ⊗ nu_dye h
       ⊗ GetTracerGradient cfg h (TracerField m trc) (buffer fresh m trc)
           beg end_ (grid m) i (g_dir h)
  else tracer_flux m i trc.
Proof.
  unfold RHS_TRACER_Flux. cbn [tracer_flux].
  destruct (trc_loop_state cfg h m beg end_ (NTRACER cfg) 0
              (tracer_flux m) (buffer fresh m)) as [_ Hf].
  apply Hf.
Qed.

(** The gradient buffer when [RHS_TRACER_Flux] returns. *)
Lemma RHS_TRACER_Flux_buffer :
  exists b, gradTRC (RHS_TRACER_Flux cfg h fresh m beg end_) = Some b /\
    forall trc, b trc =
      if visited 0 (NTRACER cfg) trc
      then GetTracerGradient cfg h (TracerField m trc) (buffer fresh m trc)
             beg end_ (grid m)
      else buffer fresh m trc.
Proof.
  unfold RHS_TRACER_Flux. cbn [gradTRC]. eexists. split; [reflexivity|].
  destruct (trc_loop_state cfg h m beg end_ (NTRACER cfg) 0
              (tracer_flux m) (buffer fresh m)) as [Hg _].
  apply Hg.
Qed.

End CallFacts.

(** ** The flux formula *)

Section FluxFormula.

Context {T : Type} {ops : DoubleOps T}.
Local Open Scope dbl_scope.

(** C1.  For every species [trc] below [NTRACER] and every cell [i] with
    [beg <= i <= end], [RHS_TRACER_Flux] leaves in [tracer_flux[i][trc]] the
    product [rho_interface * nu * grad[i][g_dir]]: [rho_interface] is the
    average of the densities of the cells [i] and [i+1] weighted by their
    widths, [nu = chi / (UNIT_LENGTH * UNIT_VELOCITY)] with
    [chi = LENGTH * (2 * U_FLOW) / REYNOLDS], and [grad] is what
    [GetTracerGradient] returns for the species, which is also what the
    gradient buffer holds for it when the call returns. *)
Theorem RHS_TRACER_Flux_formula
    (cfg : Config) (h : Host T) (fresh : Z -> Z -> Z -> T) (m : Memory T)
    (beg end_ i trc : Z) :
  beg <= i <= end_ ->
  0 <= trc < Z.of_nat (NTRACER cfg) ->
  let vc := vn (sweep m) in
  let dxs := dx (grid m) (g_dir h) in
  let rho_interface :=
    (vc i RHO ⊗ dxs i ⊕ vc (i + 1) RHO ⊗ dxs (i + 1)) ⊘ (dxs i ⊕ dxs (i + 1)) in
  let chi_ :=
    g_inputParam h LENGTH ⊗ (d_2 ⊗ g_inputParam h U_FLOW) ⊘ g_inputParam h REYNOLDS in
  let nu := chi_ ⊘ (UNIT_LENGTH h ⊗ UNIT_VELOCITY h) in
  let grad :=
    GetTracerGradient cfg h (TracerField m trc) (buffer fresh m trc)
      beg end_ (grid m) in
  let m' := RHS_TRACER_Flux cfg h fresh m beg end_ in
  tracer_flux m' i trc = rho_interface ⊗ nu ⊗ grad i (g_dir h) /\
  exists b, gradTRC m' = Some b /\ b trc = grad.
Proof.
  intros Hi Htrc vc dxs rho_interface chi_ nu grad m'. split.
  - subst m'. rewrite RHS_TRACER_Flux_entry.
    apply in_range_true in Hi. apply visited_all in Htrc.
    rewrite Hi, Htrc. reflexivity.
  - destruct (RHS_TRACER_Flux_buffer cfg h fresh m beg end_) as [b [Hb Hrow]].
    exists b. split; [exact Hb|].
    rewrite Hrow. apply visited_all in Htrc. now rewrite Htrc.
Qed.

End FluxFormula.

(** ** The gradient stencils *)

Section Stencils.

Context {T : Type} {ops : DoubleOps T}.
Local Open Scope dbl_scope.

Variables (cfg : Config) (h : Host T) (Field : Z -> Z -> Z -> T).
Variables (gradField : Z -> Z -> T) (beg end_ : Z) (grid : Grid T).

Ltac stencil Hin Hdir :=
  rewrite GetTracerGradient_row;
  rewrite (proj2 (in_range_true _ _ _) Hin), Hdir;
  cbn [Z.eqb IDIR JDIR KDIR Pos.eqb];
  unfold row_of, grad_body_IDIR, grad_body_JDIR, grad_body_KDIR, DIM_EXPAND, upd2;
  cbv zeta;
  repeat match goal with
         | H : DIMENSIONS cfg = _ |- _ => rewrite H
         | H : GEOMETRY cfg = _ |- _ => rewrite H
         end.

(** C2.  In the Cartesian configuration with at least two dimensions, for
    every [n] with [beg <= n <= end] the component of the gradient along
    the sweep direction that [GetTracerGradient] stores is the difference
    of the field at the next and at the current cell along the sweep axis,
    times [inv_dxi] of that axis, in each of the three sweep directions. *)
Theorem GetTracerGradient_sweep_component (n : Z) :
  GEOMETRY cfg = CARTESIAN ->
  DIMENSIONS cfg <> D1 ->
  beg <= n <= end_ ->
  let gF := GetTracerGradient cfg h Field gradField beg end_ grid in
  let i := g_i h in
  let j := g_j h in
  let k := g_k h in
  (g_dir h = IDIR ->
   gF n 0 = (Field k j (n + 1) ⊖ Field k j n) ⊗ inv_dxi grid IDIR n) /\
  (g_dir h = JDIR ->
   gF n 1 = (Field k (n + 1) i ⊖ Field k n i) ⊗ inv_dxi grid JDIR n) /\
  (g_dir h = KDIR ->
   gF n 2 = (Field (n + 1) j i ⊖ Field n j i) ⊗ inv_dxi grid KDIR n).
Proof.
  intros Hgeo Hdim Hin gF i j k. subst gF i j k.
  repeat split; intros Hdir; stencil Hin Hdir.
  - destruct (DIMENSIONS cfg); rewrite !upd_same; reflexivity.
  - destruct (DIMENSIONS cfg); [congruence| |]; rewrite !upd_same; reflexivity.
  - rewrite !upd_same. reflexivity.
Qed.

(** C3.  In the Cartesian configuration, for every [n] with
    [beg <= n <= end] each transverse component that the configuration
    computes is [0.25] times the sum of the field at transverse offset [+1]
    (current and sweep-forward cell) minus the field at transverse offset
    [-1] (same two cells), times the inverse width [inv_dx] of the
    transverse axis, with no other factor.  [DIM_EXPAND] computes the
    components of the axes below [DIMENSIONS] in an [IDIR] or [JDIR]
    sweep; a [KDIR] sweep computes both. *)
Theorem GetTracerGradient_transverse_components (n : Z) :
  GEOMETRY cfg = CARTESIAN ->
  beg <= n <= end_ ->
  let gF := GetTracerGradient cfg h Field gradField beg end_ grid in
  let i := g_i h in
  let j := g_j h in
  let k := g_k h in
  (g_dir h = IDIR ->
   (DIMENSIONS cfg <> D1 ->
    gF n 1 = d_025 ⊗ (Field k (j + 1) n ⊕ Field k (j + 1) (n + 1)
                      ⊖ Field k (j - 1) n ⊖ Field k (j - 1) (n + 1))
             ⊗ inv_dx grid JDIR j) /\
   (DIMENSIONS cfg = D3 ->
    gF n 2 = d_025 ⊗ (Field (k + 1) j n ⊕ Field (k + 1) j (n + 1)
                      ⊖ Field (k - 1) j n ⊖ Field (k - 1) j (n + 1))
             ⊗ inv_dx grid KDIR k)) /\
  (g_dir h = JDIR ->
   gF n 0 = d_025 ⊗ (Field k n (i + 1) ⊕ Field k (n + 1) (i + 1)
                     ⊖ Field k n (i - 1) ⊖ Field k (n + 1) (i - 1))
            ⊗ inv_dx grid IDIR i /\
   (DIMENSIONS cfg = D3 ->
    gF n 2 = d_025 ⊗ (Field (k + 1) n i ⊕ Field (k + 1) (n + 1) i
                      ⊖ Field (k - 1) n i ⊖ Field (k - 1) (n + 1) i)
             ⊗ inv_dx grid KDIR k)) /\
  (g_dir h = KDIR ->
   gF n 0 = d_025 ⊗ (Field n j (i + 1) ⊕ Field (n + 1) j (i + 1)
                     ⊖ Field n j (i - 1) ⊖ Field (n + 1) j (i - 1))
            ⊗ inv_dx grid IDIR i /\
   gF n 1 = d_025 ⊗ (Field n (j + 1) i ⊕ Field (n + 1) (j + 1) i
                     ⊖ Field n (j - 1) i ⊖ Field (n + 1) (j - 1) i)
            ⊗ inv_dx grid JDIR j).
Proof.
  intros Hgeo Hin gF i j k. subst gF i j k.
  split; [|split]; intros Hdir.
  - split; intros Hdim; stencil Hin Hdir.
    + destruct (DIMENSIONS cfg); [congruence| |]; rewrite !upd_same;
        unfold upd; reflexivity.
    + rewrite !upd_same. reflexivity.
  - split; [|intros Hdim]; stencil Hin Hdir.
    + destruct (DIMENSIONS cfg); rewrite !upd_same; unfold upd; reflexivity.
    + rewrite !upd_same. reflexivity.
  - split; stencil Hin Hdir; rewrite !upd_same; unfold upd; reflexivity.
Qed.

End Stencils.

(** ** Frame and footprint *)


Section Frame.

Context {T : Type} {ops : DoubleOps T}.
Local Open Scope dbl_scope.

(** C7.  [RHS_TRACER_Flux] changes no entry [tracer_flux[i][trc]] with [i]
    outside [beg..end] (nor one with [trc] outside [0..NTRACER-1]), and it
    leaves the tracer field, the sweep state and the grid as they were; the
    only other object it writes is its gradient buffer. *)
Theorem RHS_TRACER_Flux_frame
    (cfg : Config) (h : Host T) (fresh : Z -> Z -> Z -> T) (m : Memory T)
    (beg end_ : Z) :
  let m' := RHS_TRACER_Flux cfg h fresh m beg end_ in
  (forall i trc, ~ (beg <= i <= end_) ->
                 tracer_flux m' i trc = tracer_flux m i trc) /\
  (forall i trc, ~ (0 <= trc < Z.of_nat (NTRACER cfg)) ->
                 tracer_flux m' i trc = tracer_flux m i trc) /\
  TracerField m' = TracerField m /\
  sweep m' = sweep m /\
  grid m' = grid m.
Proof.
  intros m'. subst m'. repeat split.
  - intros i trc Hout. rewrite RHS_TRACER_Flux_entry.
    apply in_range_false in Hout. now rewrite Hout.
  - intros i trc Hout. rewrite RHS_TRACER_Flux_entry.
    destruct (visited 0 (NTRACER cfg) trc) eqn:E.
    + apply visited_all in E. contradiction.
    + now rewrite andb_false_r.
Qed.

(** A component that is not computed keeps the value the buffer held. *)
Lemma GetTracerGradient_not_computed
    (cfg : Config) (h : Host T) (Field : Z -> Z -> Z -> T)
    (gradField : Z -> Z -> T) (beg end_ : Z) (grid : Grid T) (n c : Z) :
  computed cfg (g_dir h) c = false ->
  GetTracerGradient cfg h Field gradField beg end_ grid n c = gradField n c.
Proof.
  intros Hc. rewrite GetTracerGradient_row.
  destruct (in_range beg end_ n); [|reflexivity].
  unfold computed in Hc.
  destruct (g_dir h =? IDIR); cbn [orb] in Hc.
  - unfold row_of, grad_body_IDIR, DIM_EXPAND, upd2; cbv zeta.
    destruct (DIMENSIONS cfg); rewrite !upd_same; unfold upd;
      destruct (c =? 0), (c =? 1), (c =? 2); cbn [orb] in Hc;
      try discriminate Hc; reflexivity.
  - destruct (g_dir h =? JDIR); cbn [orb] in Hc.
    + unfold row_of, grad_body_JDIR, DIM_EXPAND, upd2; cbv zeta.
      destruct (DIMENSIONS cfg); rewrite !upd_same; unfold upd;
        destruct (c =? 0), (c =? 1), (c =? 2); cbn [orb] in Hc;
        try discriminate Hc; reflexivity.
    + destruct (g_dir h =? KDIR); [|reflexivity].
      unfold row_of, grad_body_KDIR, upd2; cbv zeta.
      rewrite !upd_same; unfold upd;
        destruct (c =? 0), (c =? 1), (c =? 2); cbn [orb] in Hc;
        try discriminate Hc; reflexivity.
Qed.

(** The sweep component of the gradient does not depend on what the
    buffer held. *)
Lemma GetTracerGradient_sweep_fresh
    (cfg : Config) (h : Host T) (Field : Z -> Z -> Z -> T)
    (gF1 gF2 : Z -> Z -> T) (beg end_ : Z) (grid : Grid T) (n : Z) :
  0 <= g_dir h <= 2 ->
  (g_dir h = JDIR -> DIMENSIONS cfg <> D1) ->
  beg <= n <= end_ ->
  GetTracerGradient cfg h Field gF1 beg end_ grid n (g_dir h) =
  GetTracerGradient cfg h Field gF2 beg end_ grid n (g_dir h).
Proof.
  intros Hdir Hdim Hin. rewrite !GetTracerGradient_row.
  rewrite (proj2 (in_range_true _ _ _) Hin).
  assert (Hcases : g_dir h = IDIR \/ g_dir h = JDIR \/ g_dir h = KDIR)
    by (unfold IDIR, JDIR, KDIR; lia).
  destruct Hcases as [E|[E|E]]; rewrite E;
    cbn [Z.eqb IDIR JDIR KDIR Pos.eqb];
    unfold row_of, grad_body_IDIR, grad_body_JDIR, grad_body_KDIR,
      DIM_EXPAND, upd2; cbv zeta.
  - destruct (DIMENSIONS cfg); rewrite !upd_same; reflexivity.
  - specialize (Hdim E).
    destruct (DIMENSIONS cfg); [congruence| |]; rewrite !upd_same; reflexivity.
  - rewrite !upd_same. reflexivity.
Qed.

(** C9.  When the sweep direction is one of the three directions and its
    component is computed (an [IDIR] or [KDIR] sweep, or a [JDIR] sweep in
    at least two dimensions, which covers the configuration of
    [definitions.h]), the flux array that [RHS_TRACER_Flux] leaves is the
    same whatever the gradient buffer held before the call, and whether or
    not it was allocated: each entry [gradTRC[trc][i][g_dir]] the flux loop
    reads was written by [GetTracerGradient] in the same call. *)
Theorem RHS_TRACER_Flux_buffer_independent
    (cfg : Config) (h : Host T) (fresh1 fresh2 : Z -> Z -> Z -> T)
    (b1 b2 : option (Z -> Z -> Z -> T)) (m : Memory T) (beg end_ : Z) :
  0 <= g_dir h <= 2 ->
  (g_dir h = JDIR -> DIMENSIONS cfg <> D1) ->
  forall i trc,
    tracer_flux (RHS_TRACER_Flux cfg h fresh1 (set_gradTRC m b1) beg end_) i trc =
    tracer_flux (RHS_TRACER_Flux cfg h fresh2 (set_gradTRC m b2) beg end_) i trc.
Proof.
  intros Hdir Hdim i trc. rewrite !RHS_TRACER_Flux_entry.
  cbn [set_gradTRC TracerField sweep grid tracer_flux].
  destruct (in_range beg end_ i) eqn:Hin; cbn [andb]; [|reflexivity].
  destruct (visited 0 (NTRACER cfg) trc); [|reflexivity].
  apply in_range_true in Hin.
  f_equal. now apply GetTracerGradient_sweep_fresh.
Qed.

End Frame.

Section Footprint.

Context {T : Type} {ops : DoubleOps T}.
Local Open Scope dbl_scope.

Variables (cfg : Config) (h : Host T) (beg end_ : Z).


Lemma GetTracerGradient_agree
    (F1 F2 : Z -> Z -> Z -> T) (gF1 gF2 : Z -> Z -> T) (g1 g2 : Grid T) :
  field_agree h beg end_ F1 F2 ->
  grid_agree h beg end_ g1 g2 ->
  (forall n c, gF1 n c = gF2 n c) ->
  forall n c,
    GetTracerGradient cfg h F1 gF1 beg end_ g1 n c =
    GetTracerGradient cfg h F2 gF2 beg end_ g2 n c.
Proof.
  intros HF (Hdx & Hdxi & Hinv & Hx & Hxr) HgF n c.
  rewrite !GetTracerGradient_row.
  destruct (in_range beg end_ n) eqn:Hin; [|apply HgF].
  apply in_range_true in Hin. unfold field_agree in HF.
  destruct (Z.eqb_spec (g_dir h) IDIR) as [E|_];
    [|destruct (Z.eqb_spec (g_dir h) JDIR) as [E|_];
      [|destruct (Z.eqb_spec (g_dir h) KDIR) as [E|_]; [|apply HgF]]];
    rewrite E in HF, Hdxi; unfold sweep_index in HF;
    cbn [Z.eqb IDIR JDIR KDIR Pos.eqb] in HF.
  - assert (H0 : forall k j, F1 k j n = F2 k j n) by (intros; apply HF; lia).
    assert (H1 : forall k j, F1 k j (n + 1) = F2 k j (n + 1))
      by (intros; apply HF; lia).
    unfold row_of, grad_body_IDIR, DIM_EXPAND, upd2; cbv zeta.
    rewrite ?H0, ?H1, ?Hinv, ?Hx, ?Hxr, ?(Hdxi n Hin).
    destruct (DIMENSIONS cfg); rewrite !upd_same; unfold upd;
      repeat match goal with |- context [c =? ?v] => destruct (c =? v) end;
      try reflexivity; apply HgF.
  - assert (H0 : forall k i, F1 k n i = F2 k n i) by (intros; apply HF; lia).
    assert (H1 : forall k i, F1 k (n + 1) i = F2 k (n + 1) i)
      by (intros; apply HF; lia).
    unfold row_of, grad_body_JDIR, DIM_EXPAND, upd2; cbv zeta.
    rewrite ?H0, ?H1, ?Hinv, ?Hx, ?Hxr, ?(Hdxi n Hin).
    destruct (DIMENSIONS cfg); rewrite !upd_same; unfold upd;
      repeat match goal with |- context [c =? ?v] => destruct (c =? v) end;
      try reflexivity; apply HgF.
  - assert (H0 : forall j i, F1 n j i = F2 n j i) by (intros; apply HF; lia).
    assert (H1 : forall j i, F1 (n + 1) j i = F2 (n + 1) j i)
      by (intros; apply HF; lia).
    unfold row_of, grad_body_KDIR, upd2; cbv zeta.
    rewrite ?H0, ?H1, ?Hinv, ?Hx, ?Hxr, ?(Hdxi n Hin).
    rewrite !upd_same; unfold upd;
      repeat match goal with |- context [c =? ?v] => destruct (c =? v) end;
      try reflexivity; apply HgF.
Qed.

(** C8, as the code has it.  The gradient and the flux are computed over
    the inclusive range [beg..end].  The call writes the flux array and the
    gradient buffer at the indices [beg..end] only, and along the sweep
    axis it reads the tracer field, the sweep state and the cell widths at
    the indices [beg..end+1] only ([inv_dxi] at [beg..end]): two memories
    that agree there, and on the flux array and the buffer, give the same
    flux array and the same buffer. *)
Theorem RHS_TRACER_Flux_footprint
    (fresh : Z -> Z -> Z -> T) (m1 m2 : Memory T) :
  (forall trc, field_agree h beg end_ (TracerField m1 trc) (TracerField m2 trc)) ->
  (forall n nv, beg <= n <= end_ + 1 ->
                vn (sweep m1) n nv = vn (sweep m2) n nv) ->
  grid_agree h beg end_ (grid m1) (grid m2) ->
  (forall i trc, tracer_flux m1 i trc = tracer_flux m2 i trc) ->
  (forall trc n c, buffer fresh m1 trc n c = buffer fresh m2 trc n c) ->
  let m1' := RHS_TRACER_Flux cfg h fresh m1 beg end_ in
  let m2' := RHS_TRACER_Flux cfg h fresh m2 beg end_ in
  (forall i trc, tracer_flux m1' i trc = tracer_flux m2' i trc) /\
  (forall trc n c, buffer fresh m1' trc n c = buffer fresh m2' trc n c) /\
  (forall i trc, ~ (beg <= i <= end_) ->
                 tracer_flux m1' i trc = tracer_flux m1 i trc) /\
  (forall trc n c, ~ (beg <= n <= end_) ->
                   buffer fresh m1' trc n c = buffer fresh m1 trc n c).
Proof.
  intros HF Hvn Hgrid Hflux Hbuf m1' m2'. subst m1' m2'.
  assert (HG : forall trc n c,
             GetTracerGradient cfg h (TracerField m1 trc) (buffer fresh m1 trc)
               beg end_ (grid m1) n c =
             GetTracerGradient cfg h (TracerField m2 trc) (buffer fresh m2 trc)
               beg end_ (grid m2) n c).
  { intros trc. apply GetTracerGradient_agree; [apply HF|exact Hgrid|apply Hbuf]. }
  destruct (RHS_TRACER_Flux_buffer cfg h fresh m1 beg end_) as [c1 [Hc1 Hrow1]].
  destruct (RHS_TRACER_Flux_buffer cfg h fresh m2 beg end_) as [c2 [Hc2 Hrow2]].
  repeat split.
  - intros i trc. rewrite !RHS_TRACER_Flux_entry.
    destruct (in_range beg end_ i) eqn:Hin; cbn [andb]; [|apply Hflux].
    destruct (visited 0 (NTRACER cfg) trc); [|apply Hflux].
    apply in_range_true in Hin. rewrite HG. unfold vi.
    destruct Hgrid as (Hdx & _).
    rewrite (Hvn i RHO), (Hvn (i + 1) RHO), (Hdx i), (Hdx (i + 1)) by lia.
    reflexivity.
  - intros trc n c. unfold buffer at 1 2. rewrite Hc1, Hc2, Hrow1, Hrow2.
    destruct (visited 0 (NTRACER cfg) trc); [apply HG|apply Hbuf].
  - intros i trc Hout. rewrite RHS_TRACER_Flux_entry.
    apply in_range_false in Hout. now rewrite Hout.
  - intros trc n c Hout. unfold buffer at 1. rewrite Hc1, Hrow1.
    destruct (visited 0 (NTRACER cfg) trc); [|reflexivity].
    now rewrite GetTracerGradient_outside.
Qed.

End Footprint.

(** ** Facts on the selection of the components *)

Lemma computed_cases (cfg : Config) (dir c : Z) :
  computed cfg dir c = true ->
  (dir = IDIR \/ dir = JDIR \/ dir = KDIR) /\ (c = 0 \/ c = 1 \/ c = 2).
Proof.
  unfold computed, IDIR, JDIR, KDIR.
  destruct (Z.eqb_spec dir 0), (Z.eqb_spec dir 1), (Z.eqb_spec dir 2);
    cbn [orb]; try discriminate;
    destruct (DIMENSIONS cfg);
    destruct (Z.eqb_spec c 0), (Z.eqb_spec c 1), (Z.eqb_spec c 2);
    cbn [orb]; try discriminate; intros _; lia.
Qed.

Lemma computed_sweep (cfg : Config) (dir : Z) :
  0 <= dir <= 2 ->
  (dir = JDIR -> DIMENSIONS cfg <> D1) ->
  computed cfg dir dir = true.
Proof.
  intros Hdir Hdim. unfold computed.
  assert (Hc : dir = IDIR \/ dir = JDIR \/ dir = KDIR)
    by (unfold IDIR, JDIR, KDIR; lia).
  destruct Hc as [E|[E|E]]; subst dir; cbn; try reflexivity.
  - now destruct (DIMENSIONS cfg).
  - specialize (Hdim eq_refl). now destruct (DIMENSIONS cfg).
Qed.

(** ** Facts on binary64 *)

Section Binary64Facts.

Lemma fexp_eq (z : Z) : fexp prec emax z = Z.max (z - 53) (-1074).
Proof. reflexivity. Qed.

Lemma canonical_eq (m : positive) (e : Z) :
  canonical_mantissa prec emax m e = true ->
  Z.max (Zpos (digits2_pos m) + e - 53) (-1074) = e.
Proof. unfold canonical_mantissa. rewrite fexp_eq. apply Z.eqb_eq. Qed.

Lemma shr_fexp_exact (m : positive) (e : Z) :
  canonical_mantissa prec emax m e = true ->
  shr_fexp prec emax (Zpos m) e loc_Exact =
  ({| shr_m := Zpos m; shr_r := false; shr_s := false |}, e).
Proof.
  intros Hc. apply canonical_eq in Hc.
  unfold shr_fexp. cbn [Zdigits2 shr_record_of_loc].
  rewrite fexp_eq, Hc, Z.sub_diag. reflexivity.
Qed.

(** Rounding a mantissa that is canonical changes nothing. *)
Lemma binary_round_aux_exact (s : bool) (m : positive) (e : Z) :
  canonical_mantissa prec emax m e = true ->
  binary_round_aux prec emax s (Zpos m) e loc_Exact =
  if e <=? 971 then S754_finite s m e else S754_infinity s.
Proof.
  intros Hc. unfold binary_round_aux. rewrite (shr_fexp_exact m e Hc).
  cbn [shr_m loc_of_shr_record round_nearest_even].
  rewrite (shr_fexp_exact m e Hc). reflexivity.
Qed.

(** Rounding a mantissa of 54 bits whose last bit is zero drops that bit. *)
Lemma binary_round_aux_even (s : bool) (m : positive) (e : Z) :
  Zpos (digits2_pos m) = 53 ->
  canonical_mantissa prec emax m e = true ->
  binary_round_aux prec emax s (Zpos m~0) e loc_Exact =
  if e + 1 <=? 971 then S754_finite s m (e + 1) else S754_infinity s.
Proof.
  intros Hd Hc.
  pose proof (canonical_eq m e Hc) as H.
  assert (Hc1 : canonical_mantissa prec emax m (e + 1) = true).
  { unfold canonical_mantissa. rewrite fexp_eq. apply Z.eqb_eq. lia. }
  unfold binary_round_aux.
  assert (H1 : shr_fexp prec emax (Zpos m~0) e loc_Exact =
               ({| shr_m := Zpos m; shr_r := false; shr_s := false |}, e + 1)).
  { unfold shr_fexp. cbn [Zdigits2 shr_record_of_loc digits2_pos].
    rewrite fexp_eq.
    replace (Z.max (Zpos (Pos.succ (digits2_pos m)) + e - 53) (-1074) - e)
      with 1 by lia.
    reflexivity. }
  rewrite H1. cbn [shr_m loc_of_shr_record round_nearest_even].
  rewrite (shr_fexp_exact m (e + 1) Hc1). reflexivity.
Qed.

Lemma shl_align_le (m : positive) (e e' : Z) :
  e <= e' -> shl_align m e e' = (m, e).
Proof.
  intros H. unfold shl_align. destruct (e' - e) eqn:E; try reflexivity. lia.
Qed.

Lemma binary_round_exact (s : bool) (m : positive) (e : Z) :
  canonical_mantissa prec emax m e = true ->
  binary_round prec emax s m e =
  if e <=? 971 then S754_finite s m e else S754_infinity s.
Proof.
  intros Hc. unfold binary_round. rewrite fexp_eq, (canonical_eq m e Hc).
  rewrite shl_align_le by lia. now apply binary_round_aux_exact.
Qed.

(** Rounding the double of the mantissa of a binary64 number. *)
Lemma binary_round_double (s : bool) (m : positive) (e : Z) :
  bounded prec emax m e = true ->
  binary_round prec emax s m~0 e =
  if Zpos (digits2_pos m) =? 53
  then if e + 1 <=? 971 then S754_finite s m (e + 1) else S754_infinity s
  else S754_finite s m~0 e.
Proof.
  intros Hb. apply andb_prop in Hb. destruct Hb as [Hc He].
  apply Z.leb_le in He. change (emax - prec) with 971 in He.
  pose proof (canonical_eq m e Hc) as H.
  unfold binary_round. rewrite fexp_eq. cbn [digits2_pos].
  rewrite shl_align_le by lia.
  destruct (Z.eqb_spec (Zpos (digits2_pos m)) 53) as [Hd|Hd].
  - now apply binary_round_aux_even.
  - assert (Hc0 : canonical_mantissa prec emax m~0 e = true).
    { unfold canonical_mantissa. rewrite fexp_eq. cbn [digits2_pos].
      apply Z.eqb_eq. lia. }
    rewrite (binary_round_aux_exact s _ e Hc0).
    apply Z.leb_le in He. now rewrite He.
Qed.

(** [v + v]: the exponent goes up by one, or the mantissa of a subnormal
    number doubles, or the sum overflows. *)
Lemma SFadd_self (s : bool) (m : positive) (e : Z) :
  bounded prec emax m e = true ->
  SF64add (S754_finite s m e) (S754_finite s m e) =
  if Zpos (digits2_pos m) =? 53
  then if e + 1 <=? 971 then S754_finite s m (e + 1) else S754_infinity s
  else S754_finite s m~0 e.
Proof.
  intros Hb. unfold SF64add, SFadd. rewrite Z.min_id, shl_align_le by lia.
  cbn [fst]. rewrite <- (binary_round_double s m e Hb).
  destruct s; cbn [cond_Zopp Z.opp Z.add binary_normalize];
    rewrite Pos.add_diag; reflexivity.
Qed.

(** [v - v = +0] for every number [v]. *)
Lemma SFsub_self (v : spec_float) :
  SFfinite v = true -> SF64sub v v = S754_zero false.
Proof.
  destruct v as [s|s| |s m e]; try discriminate; intros _.
  - destruct s; reflexivity.
  - unfold SF64sub, SFsub. rewrite Z.min_id, Z.sub_diag. reflexivity.
Qed.

(** [(v + v) - v = v] when [v + v] does not overflow. *)
Lemma SFsub_double (s : bool) (m : positive) (e : Z) :
  bounded prec emax m e = true ->
  SFfinite (SF64add (S754_finite s m e) (S754_finite s m e)) = true ->
  SF64sub (SF64add (S754_finite s m e) (S754_finite s m e)) (S754_finite s m e) =
  S754_finite s m e.
Proof.
  intros Hb. rewrite (SFadd_self s m e Hb).
  pose proof Hb as Hb'. apply andb_prop in Hb'. destruct Hb' as [Hc He].
  assert (Hr : binary_round prec emax s m e = S754_finite s m e).
  { rewrite (binary_round_exact s m e Hc). change (emax - prec) with 971 in He.
    now rewrite He. }
  destruct (Zpos (digits2_pos m) =? 53).
  - destruct (e + 1 <=? 971); [intros _|discriminate].
    unfold SF64sub, SFsub.
    replace (Z.min (e + 1) e) with e by lia.
    rewrite (shl_align_le m e e) by lia.
    unfold shl_align at 1. replace (e - (e + 1)) with (Zneg 1) by lia.
    cbn [fst Pos.iter]. rewrite <- Hr.
    destruct s; cbn [cond_Zopp];
      [ replace (- Zpos m~0 - - Zpos m) with (Zneg m) by lia
      | replace (Zpos m~0 - Zpos m) with (Zpos m) by lia ]; reflexivity.
  - intros _. unfold SF64sub, SFsub. rewrite Z.min_id, !shl_align_le by lia.
    cbn [fst]. rewrite <- Hr.
    destruct s; cbn [cond_Zopp];
      [ replace (- Zpos m~0 - - Zpos m) with (Zneg m) by lia
      | replace (Zpos m~0 - Zpos m) with (Zpos m) by lia ]; reflexivity.
Qed.

Lemma SFadd_self_finite (v : spec_float) :
  SFfinite (SF64add v v) = true -> SFfinite v = true.
Proof.
  destruct v as [s|s| |s m e]; try reflexivity.
  - destruct s; cbn; trivial.
  - cbn. trivial.
Qed.

(** [v + v - v - v] is a zero when [v + v] does not overflow. *)
Lemma SFfour_point (v : spec_float) :
  valid_binary v = true ->
  SFfinite (SF64add v v) = true ->
  SFzero (SF64sub (SF64sub (SF64add v v) v) v) = true.
Proof.
  intros Hv Hf. destruct v as [s|s| |s m e].
  - destruct s; reflexivity.
  - destruct s; discriminate Hf.
  - discriminate Hf.
  - cbn [valid_binary] in Hv. rewrite (SFsub_double s m e Hv Hf).
    now rewrite SFsub_self.
Qed.

Lemma SFmul_zero_l (u v : spec_float) :
  SFzero u = true -> SFfinite v = true -> SFzero (SF64mul u v) = true.
Proof.
  destruct u as [s|s| |s m e]; try discriminate.
  destruct v as [t|t| |t m e]; try discriminate; reflexivity.
Qed.

Lemma SFmul_zero_r (u v : spec_float) :
  SFfinite u = true -> SFzero v = true -> SFzero (SF64mul u v) = true.
Proof.
  destruct v as [s|s| |s m e]; try discriminate.
  destruct u as [t|t| |t m e]; try discriminate; reflexivity.
Qed.

Lemma is_finite_SFfinite (v : float) :
  is_finite v = true -> SFfinite (Prim2SF v) = true.
Proof.
  unfold is_finite, is_nan, is_infinity. rewrite !eqb_spec, abs_spec.
  destruct (Prim2SF v) as [s|s| |s m e]; cbn; try reflexivity.
  - destruct s; cbn; discriminate.
  - discriminate.
Qed.

Lemma is_zero_SFzero (v : float) : is_zero v = SFzero (Prim2SF v).
Proof.
  unfold is_zero. rewrite eqb_spec.
  destruct (Prim2SF v) as [s|s| |s m e]; try reflexivity; destruct s; reflexivity.
Qed.

Lemma SFcompare_refl (s : bool) (m : positive) (e : Z) :
  SFcompare (S754_finite s m e) (S754_finite s m e) = Some Eq.
Proof.
  cbn [SFcompare]. rewrite Z.compare_refl.
  assert (H : Pos.compare_cont Eq m m = Eq) by apply Pos.compare_cont_refl.
  rewrite H. destruct s; reflexivity.
Qed.

Lemma SFfinite_is_finite (v : float) :
  SFfinite (Prim2SF v) = true -> is_finite v = true.
Proof.
  unfold is_finite, is_nan, is_infinity. rewrite !eqb_spec, abs_spec.
  destruct (Prim2SF v) as [s|s| |s m e]; cbn [SFfinite]; try discriminate;
    intros _.
  - destruct s; reflexivity.
  - unfold SFeqb at 1. rewrite SFcompare_refl. reflexivity.
Qed.

(** A number whose double is finite is finite. *)
Lemma is_finite_add_self (c : float) :
  is_finite (c + c) = true -> is_finite c = true.
Proof.
  intros Hf. apply is_finite_SFfinite in Hf. rewrite add_spec in Hf.
  now apply SFfinite_is_finite, SFadd_self_finite.
Qed.

(** In binary64 [c - c] is zero for every number [c]. *)
Lemma sub_self_zero (c : float) :
  is_finite c = true -> is_zero (c - c) = true.
Proof.
  intros Hf. apply is_finite_SFfinite in Hf.
  now rewrite is_zero_SFzero, sub_spec, SFsub_self.
Qed.

(** In binary64 [c + c - c - c] is zero when [c + c] does not overflow. *)
Lemma four_point_zero (c : float) :
  is_finite (c + c) = true -> is_zero (c + c - c - c) = true.
Proof.
  intros Hf. apply is_finite_SFfinite in Hf. rewrite add_spec in Hf.
  rewrite is_zero_SFzero, !sub_spec, add_spec.
  apply SFfour_point; [apply Prim2SF_valid|exact Hf].
Qed.

Lemma mul_zero_l (z v : float) :
  is_zero z = true -> is_finite v = true -> is_zero (z * v) = true.
Proof.
  intros Hz Hv. rewrite is_zero_SFzero in *. rewrite mul_spec.
  apply SFmul_zero_l; [exact Hz|now apply is_finite_SFfinite].
Qed.

Lemma mul_zero_r (v z : float) :
  is_finite v = true -> is_zero z = true -> is_zero (v * z) = true.
Proof.
  intros Hv Hz. rewrite is_zero_SFzero in *. rewrite mul_spec.
  apply SFmul_zero_r; [now apply is_finite_SFfinite|exact Hz].
Qed.

(** The sweep component and a transverse component on a uniform field. *)
Lemma sweep_zero (c dl : float) :
  is_finite c = true -> is_finite dl = true ->
  is_zero ((c - c) * dl) = true.
Proof.
  intros Hc Hdl. apply mul_zero_l; [now apply sub_self_zero|exact Hdl].
Qed.

Lemma transverse_zero (c dl : float) :
  is_finite (c + c) = true -> is_finite dl = true ->
  is_zero (0.25 * (c + c - c - c) * dl) = true.
Proof.
  intros Hc Hdl. apply mul_zero_l; [|exact Hdl].
  apply mul_zero_r; [reflexivity|now apply four_point_zero].
Qed.

Lemma div_eucl_exact (a b q : Z) :
  0 < b -> a = q * b -> Z.div_eucl a b = (q, 0).
Proof.
  intros Hb ->.
  pose proof (Z.div_mul q b ltac:(lia)) as Hq.
  pose proof (Z.mod_mul q b ltac:(lia)) as Hr.
  unfold Z.div in Hq. unfold Z.modulo in Hr.
  destruct (Z.div_eucl (q * b) b) as [q' r']. now subst.
Qed.

(** Division by [1] is exact, on every binary64 value. *)
Lemma SFdiv_one (v : spec_float) :
  valid_binary v = true ->
  SF64div v (S754_finite false 4503599627370496 (-52)) = v.
Proof.
  destruct v as [s|s| |s m e]; intros Hv.
  - destruct s; reflexivity.
  - destruct s; reflexivity.
  - reflexivity.
  - cbn [valid_binary] in Hv. apply andb_prop in Hv. destruct Hv as [Hc He].
    change (emax - prec) with 971 in He.
    pose proof (canonical_eq m e Hc) as H.
    unfold SF64div, SFdiv, SFdiv_core_binary.
    change (Zdigits2 (Zpos 4503599627370496)) with 53.
    cbn [Zdigits2]. rewrite fexp_eq. rewrite xorb_false_r.
    destruct (Z.eq_dec (Zpos (digits2_pos m)) 53) as [Hd|Hd];
      [destruct (Z.eq_dec e (-1074)) as [Hm|Hm]|].
    + replace (Z.min (Z.max (Zpos (digits2_pos m) + e - (53 + -52) - 53) (-1074))
                 (e - -52)) with e by lia.
      replace (e - -52 - e) with 52 by lia.
      rewrite Z.shiftl_mul_pow2 by lia.
      rewrite (div_eucl_exact _ _ (Zpos m)) by (try reflexivity; lia).
      change (new_location (Zpos 4503599627370496) 0) with loc_Exact.
      rewrite (binary_round_aux_exact s m e Hc). now rewrite He.
    + replace (Z.min (Z.max (Zpos (digits2_pos m) + e - (53 + -52) - 53) (-1074))
                 (e - -52)) with (e - 1) by lia.
      replace (e - -52 - (e - 1)) with 53 by lia.
      rewrite Z.shiftl_mul_pow2 by lia.
      rewrite (div_eucl_exact _ _ (Zpos m~0)) by (try reflexivity; lia).
      change (new_location (Zpos 4503599627370496) 0) with loc_Exact.
      rewrite (binary_round_aux_even s m (e - 1) Hd).
      * replace (e - 1 + 1) with e by lia. now rewrite He.
      * unfold canonical_mantissa. rewrite fexp_eq. apply Z.eqb_eq. lia.
    + replace (Z.min (Z.max (Zpos (digits2_pos m) + e - (53 + -52) - 53) (-1074))
                 (e - -52)) with e by lia.
      replace (e - -52 - e) with 52 by lia.
      rewrite Z.shiftl_mul_pow2 by lia.
      rewrite (div_eucl_exact _ _ (Zpos m)) by (try reflexivity; lia).
      change (new_location (Zpos 4503599627370496) 0) with loc_Exact.
      rewrite (binary_round_aux_exact s m e Hc). now rewrite He.
Qed.



(** *** Scaling by two *)

(** The number of bits of a mantissa: a right shift removes one, the
    rounding adds one at most. *)
Lemma digits2_pos_succ (p : positive) :
  Zpos (digits2_pos (Pos.succ p)) <= Zpos (digits2_pos p) + 1.
Proof. induction p; cbn [Pos.succ digits2_pos]; lia. Qed.

Lemma shr_m_of_loc (m : Z) (l : location) : shr_m (shr_record_of_loc m l) = m.
Proof. destruct l as [|[]]; reflexivity. Qed.

Lemma shr_1_digits (mrs : shr_record) :
  0 <= shr_m mrs ->
  0 <= shr_m (shr_1 mrs) /\
  Zdigits2 (shr_m (shr_1 mrs)) <= Z.max (Zdigits2 (shr_m mrs) - 1) 0.
Proof.
  destruct mrs as [m r s]. destruct m as [|p|p]; cbn [shr_m]; intros H; try lia.
  - cbn [shr_1 shr_m Zdigits2]. lia.
  - destruct p; cbn [shr_1 shr_m Zdigits2 digits2_pos]; lia.
Qed.

Lemma iter_shr_digits (n : positive) :
  forall mrs, 0 <= shr_m mrs ->
    0 <= shr_m (iter_pos shr_1 n mrs) /\
    Zdigits2 (shr_m (iter_pos shr_1 n mrs))
    <= Z.max (Zdigits2 (shr_m mrs) - Zpos n) 0.
Proof.
  induction n as [n IH|n IH|]; intros mrs H; cbn [iter_pos].
  - destruct (shr_1_digits mrs H) as [H0 H1].
    destruct (IH _ H0) as [H2 H3]. destruct (IH _ H2) as [H4 H5].
    split; [exact H4|lia].
  - destruct (IH _ H) as [H2 H3]. destruct (IH _ H2) as [H4 H5].
    split; [exact H4|lia].
  - apply shr_1_digits, H.
Qed.

Lemma round_digits (mx : Z) (l : location) :
  0 <= mx ->
  0 <= round_nearest_even mx l /\
  Zdigits2 (round_nearest_even mx l) <= Zdigits2 mx + 1.
Proof.
  intros H.
  assert (H1 : 0 <= mx + 1 /\ Zdigits2 (mx + 1) <= Zdigits2 mx + 1).
  { destruct mx as [|p|p]; try lia.
    - cbn [Z.add Zdigits2 digits2_pos]. lia.
    - cbn [Z.add Zdigits2]. rewrite Pos.add_1_r.
      pose proof (digits2_pos_succ p). lia. }
  destruct l as [|[]]; cbn [round_nearest_even]; try (split; lia); try exact H1.
  destruct (Z.even mx); [split; lia|exact H1].
Qed.

(** The exponent that [shr_fexp] returns, and the size of what it returns. *)
Lemma shr_fexp_bound (m e : Z) (l : location) :
  0 <= m ->
  0 <= shr_m (fst (shr_fexp prec emax m e l)) /\
  snd (shr_fexp prec emax m e l) = Z.max e (fexp prec emax (Zdigits2 m + e)) /\
  Zdigits2 (shr_m (fst (shr_fexp prec emax m e l))) + snd (shr_fexp prec emax m e l)
  <= Z.max (Zdigits2 m + e) (fexp prec emax (Zdigits2 m + e)).
Proof.
  intros H. unfold shr_fexp, shr.
  destruct (fexp prec emax (Zdigits2 m + e) - e) as [|p|p] eqn:En; cbn [fst snd].
  - rewrite shr_m_of_loc. lia.
  - destruct (iter_shr_digits p (shr_record_of_loc m l)) as [H0 H1];
      [now rewrite shr_m_of_loc|].
    rewrite shr_m_of_loc in H1. lia.
  - rewrite shr_m_of_loc. lia.
Qed.

(** Above the subnormal range the shift that [shr_fexp] applies does not
    depend on the exponent. *)
Lemma shr_fexp_shift (m e : Z) (l : location) :
  -1074 <= Zdigits2 m + e - 54 ->
  shr_fexp prec emax m (e - 1) l =
  (fst (shr_fexp prec emax m e l), snd (shr_fexp prec emax m e l) - 1).
Proof.
  intros H. unfold shr_fexp. rewrite !fexp_eq.
  replace (Z.max (Zdigits2 m + (e - 1) - 53) (-1074) - (e - 1))
    with (Z.max (Zdigits2 m + e - 53) (-1074) - e) by lia.
  unfold shr. destruct (Z.max (Zdigits2 m + e - 53) (-1074) - e); cbn [fst snd];
    f_equal; lia.
Qed.

(** The size of the rounded number is at most one more than the size of
    the number that is rounded. *)
Lemma binary_round_aux_size (s : bool) (q E : Z) (l : location)
    (s' : bool) (m : positive) (e : Z) :
  0 <= q ->
  binary_round_aux prec emax s q E l = S754_finite s' m e ->
  Zpos (digits2_pos m) = 53 -> -1074 <= e ->
  e + 52 <= Zdigits2 q + E.
Proof.
  intros Hq H Hd He. unfold binary_round_aux in H.
  destruct (shr_fexp_bound q E l Hq) as (B0 & B1 & B2).
  destruct (shr_fexp prec emax q E l) as [mrs1 e1]. cbn [fst snd] in *.
  destruct (round_digits (shr_m mrs1) (loc_of_shr_record mrs1) B0) as [R0 R1].
  set (m1 := round_nearest_even (shr_m mrs1) (loc_of_shr_record mrs1)) in *.
  destruct (shr_fexp_bound m1 e1 loc_Exact R0) as (C0 & C1 & C2).
  destruct (shr_fexp prec emax m1 e1 loc_Exact) as [mrs2 e2]. cbn [fst snd] in *.
  destruct (shr_m mrs2) as [|m2|m2] eqn:Em; try discriminate H.
  destruct (e2 <=? emax - prec); inversion H; subst.
  cbn [Zdigits2] in C2. rewrite !fexp_eq in *. lia.
Qed.

(** Rounding commutes with the halving of a number that is large enough. *)
Lemma binary_round_aux_half (s : bool) (q E : Z) (l : location)
    (s' : bool) (m : positive) (e : Z) :
  0 <= q ->
  binary_round_aux prec emax s q E l = S754_finite s' m e ->
  Zpos (digits2_pos m) = 53 -> -1072 <= e ->
  binary_round_aux prec emax s q (E - 1) l = S754_finite s' m (e - 1).
Proof.
  intros Hq H Hd He.
  pose proof (binary_round_aux_size s q E l s' m e Hq H Hd ltac:(lia)) as HX.
  unfold binary_round_aux in H |- *.
  rewrite (shr_fexp_shift q E l) by lia.
  destruct (shr_fexp_bound q E l Hq) as (B0 & B1 & B2).
  destruct (shr_fexp prec emax q E l) as [mrs1 e1]. cbn [fst snd] in *.
  destruct (round_digits (shr_m mrs1) (loc_of_shr_record mrs1) B0) as [R0 R1].
  set (m1 := round_nearest_even (shr_m mrs1) (loc_of_shr_record mrs1)) in *.
  clearbody m1.
  destruct (shr_fexp_bound m1 e1 loc_Exact R0) as (C0 & C1 & C2).
  assert (Hm1 : -1074 <= Zdigits2 m1 + e1 - 54).
  { unfold shr_fexp, shr in H.
    destruct (fexp prec emax (Zdigits2 m1 + e1) - e1) as [|p|p] eqn:En;
      cbn [fst snd] in H;
      match type of H with
      | match ?t with _ => _ end = _ => destruct t as [|m2|m2] eqn:Em
      end; try discriminate H;
      match type of H with
      | (if ?c then _ else _) = _ => destruct c
      end; inversion H; subst; rewrite ?shr_m_of_loc in Em; subst;
      rewrite ?fexp_eq in *; cbn [Zdigits2] in *; lia. }
  rewrite (shr_fexp_shift m1 e1 loc_Exact Hm1).
  destruct (shr_fexp prec emax m1 e1 loc_Exact) as [mrs2 e2]. cbn [fst snd] in *.
  destruct (shr_m mrs2) as [|m2|m2]; try discriminate H.
  destruct (Z.leb_spec e2 (emax - prec)); inversion H; subst.
  match goal with
  | |- context [?a <=? ?b] =>
      replace (a <=? b) with true by (symmetry; apply Z.leb_le; lia)
  end.
  reflexivity.
Qed.

(** A mantissa of [d] bits lies between [2^(d-1)] and [2^d]. *)
Lemma digits2_pos_bounds (p : positive) :
  2 ^ (Zpos (digits2_pos p) - 1) <= Zpos p < 2 ^ Zpos (digits2_pos p).
Proof.
  induction p as [p IH|p IH|]; cbn [digits2_pos].
  - rewrite Pos2Z.inj_succ, Z.pow_succ_r by lia.
    replace (Z.succ (Zpos (digits2_pos p)) - 1)
      with (Z.succ (Zpos (digits2_pos p) - 1)) by lia.
    rewrite Z.pow_succ_r by lia. lia.
  - rewrite Pos2Z.inj_succ, Z.pow_succ_r by lia.
    replace (Z.succ (Zpos (digits2_pos p)) - 1)
      with (Z.succ (Zpos (digits2_pos p) - 1)) by lia.
    rewrite Z.pow_succ_r by lia. lia.
  - cbn. lia.
Qed.

Lemma Zdigits2_le (z k : Z) : 0 <= z -> 0 <= k -> z < 2 ^ k -> Zdigits2 z <= k.
Proof.
  intros Hz Hk Hlt. destruct z as [|p|p]; cbn [Zdigits2]; try lia.
  destruct (Z_le_gt_dec (Zpos (digits2_pos p)) k) as [|Hgt]; [assumption|].
  pose proof (digits2_pos_bounds p) as [Hlow _].
  assert (2 ^ k <= 2 ^ (Zpos (digits2_pos p) - 1))
    by (apply Z.pow_le_mono_r; lia).
  lia.
Qed.

(** The quotient that the division computes before rounding. *)
Lemma SFdiv_core_size (mx my : positive) (ex ey : Z) :
  let t := Zpos (digits2_pos mx) + ex - (Zpos (digits2_pos my) + ey) in
  let '(q, e', _) := SFdiv_core_binary prec emax (Zpos mx) ex (Zpos my) ey in
  0 <= q /\ Zdigits2 q + e' <= Z.max (t + 1) (fexp prec emax t).
Proof.
  intros t. unfold SFdiv_core_binary. cbn [Zdigits2]. fold t.
  set (e' := Z.min (fexp prec emax t) (ex - ey)).
  set (s := ex - ey - e').
  assert (Hs : 0 <= s) by (unfold s, e'; lia).
  set (m' := match s with
             | 0 => Zpos mx
             | Zpos _ => Z.shiftl (Zpos mx) s
             | Zneg _ => 0
             end).
  assert (Hm' : m' = Zpos mx * 2 ^ s).
  { unfold m'. destruct s as [|p|p]; try lia.
    - now rewrite Z.shiftl_mul_pow2. }
  clearbody m'.
  pose proof (Z.div_pos m' (Zpos my)) as Hq0.
  pose proof (Z.mul_div_le m' (Zpos my) ltac:(lia)) as Hq1.
  unfold Z.div in Hq0, Hq1.
  destruct (Z.div_eucl m' (Zpos my)) as [q r]. cbv beta iota in Hq0, Hq1.
  assert (H2s : 0 < 2 ^ s) by (apply Z.pow_pos_nonneg; lia).
  assert (Hq : 0 <= q) by (apply Hq0; nia).
  split; [exact Hq|].
  set (d1 := Zpos (digits2_pos mx)) in *.
  set (d2 := Zpos (digits2_pos my)) in *.
  pose proof (digits2_pos_bounds mx) as [_ Hx]. fold d1 in Hx.
  pose proof (digits2_pos_bounds my) as [Hy _]. fold d2 in Hy.
  assert (Hd1 : 0 < d1) by (unfold d1; lia).
  assert (Hd2 : 0 < d2) by (unfold d2; lia).
  set (k := Z.max (d1 + s - d2 + 1) 0).
  assert (Hk : Zdigits2 q <= k).
  { apply Zdigits2_le; [exact Hq|unfold k; lia|].
    destruct (Z_lt_ge_dec q (2 ^ k)) as [|Hge]; [assumption|exfalso].
    assert (Hm'lt : m' < 2 ^ (d1 + s)).
    { rewrite Hm', Z.pow_add_r by lia. nia. }
    assert (Hpow : 2 ^ (d1 + s) <= 2 ^ k * 2 ^ (d2 - 1)).
    { rewrite <- Z.pow_add_r by (unfold k; lia).
      apply Z.pow_le_mono_r; unfold k; lia. }
    assert (HB : 0 < 2 ^ (d2 - 1)) by (apply Z.pow_pos_nonneg; lia).
    assert (HA : 0 < 2 ^ k) by (apply Z.pow_pos_nonneg; unfold k; lia).
    assert (H1 : 2 ^ k * 2 ^ (d2 - 1) <= q * 2 ^ (d2 - 1))
      by (apply Z.mul_le_mono_nonneg_r; lia).
    assert (H2 : q * 2 ^ (d2 - 1) <= q * Zpos my)
      by (apply Z.mul_le_mono_nonneg_l; lia).
    lia. }
  assert (Ht : t = d1 + ex - (d2 + ey)) by reflexivity.
  unfold k, s, e' in *. clearbody t. lia.
Qed.

(** Halving the dividend, or doubling the divisor, lowers the exponent of
    the quotient by one. *)
Lemma SFdiv_core_shift (mx my : positive) (ex ey ex' ey' : Z) :
  ex' - ey' = ex - ey - 1 ->
  -1074 <= Zpos (digits2_pos mx) + ex - (Zpos (digits2_pos my) + ey) - 54 ->
  Zpos (digits2_pos mx) + ex' - (Zpos (digits2_pos my) + ey')
  = Zpos (digits2_pos mx) + ex - (Zpos (digits2_pos my) + ey) - 1 ->
  SFdiv_core_binary prec emax (Zpos mx) ex' (Zpos my) ey' =
  let '(q, e', l) := SFdiv_core_binary prec emax (Zpos mx) ex (Zpos my) ey in
  (q, e' - 1, l).
Proof.
  intros He Ht Ht'. unfold SFdiv_core_binary. cbn [Zdigits2].
  rewrite Ht', He, !fexp_eq.
  set (t := Zpos (digits2_pos mx) + ex - (Zpos (digits2_pos my) + ey)) in *.
  replace (Z.min (Z.max (t - 1 - 53) (-1074)) (ex - ey - 1))
    with (Z.min (Z.max (t - 53) (-1074)) (ex - ey) - 1) by lia.
  set (e' := Z.min (Z.max (t - 53) (-1074)) (ex - ey)).
  replace (ex - ey - 1 - (e' - 1)) with (ex - ey - e') by lia.
  destruct (Z.div_eucl _ _) as [q r]. reflexivity.
Qed.

(** With the exponent of the dividend lowered by one, or that of the
    divisor raised by one, the quotient rounds to the same mantissa with
    the exponent lowered by one. *)
Lemma SFdiv_shift (sx sy : bool) (mx my : positive) (ex ey ex' ey' : Z)
    (s : bool) (m : positive) (e : Z) :
  ex' - ey' = ex - ey - 1 ->
  SF64div (S754_finite sx mx ex) (S754_finite sy my ey) = S754_finite s m e ->
  Zpos (digits2_pos m) = 53 -> -1071 <= e ->
  SF64div (S754_finite sx mx ex') (S754_finite sy my ey') = S754_finite s m (e - 1).
Proof.
  intros He H Hd Hlow. unfold SF64div, SFdiv in H |- *.
  pose proof (SFdiv_core_size mx my ex ey) as Hsize. cbv zeta in Hsize.
  set (t := Zpos (digits2_pos mx) + ex - (Zpos (digits2_pos my) + ey)) in *.
  assert (Hshift : -1074 <= t - 54 ->
            SFdiv_core_binary prec emax (Zpos mx) ex' (Zpos my) ey' =
            let '(q, e', l) := SFdiv_core_binary prec emax (Zpos mx) ex (Zpos my) ey in
            (q, e' - 1, l)).
  { intros Ht. apply SFdiv_core_shift; [exact He|exact Ht|lia]. }
  destruct (SFdiv_core_binary prec emax (Zpos mx) ex (Zpos my) ey) as [[q e'] l].
  destruct Hsize as [Hq Hsz].
  pose proof (binary_round_aux_size _ q e' l s m e Hq H Hd ltac:(lia)) as HX.
  rewrite fexp_eq in Hsz.
  rewrite Hshift by lia.
  apply binary_round_aux_half; try assumption. lia.
Qed.

Lemma SFdiv_half_dividend (u v : spec_float) (s : bool) (m : positive) (e : Z) :
  SF64div u v = S754_finite s m e ->
  Zpos (digits2_pos m) = 53 -> -1071 <= e ->
  SF64div (SFhalf u) v = S754_finite s m (e - 1).
Proof.
  intros H Hd He.
  destruct u as [su|su| |su mu eu], v as [sv|sv| |sv mv ev]; try discriminate H.
  cbn [SFhalf]. apply (SFdiv_shift su sv mu mv eu ev); try assumption. lia.
Qed.

Lemma SFdiv_double_divisor (u v : spec_float) (s : bool) (m : positive) (e : Z) :
  SF64div u v = S754_finite s m e ->
  Zpos (digits2_pos m) = 53 -> -1071 <= e ->
  SF64div u (SFdouble v) = S754_finite s m (e - 1).
Proof.
  intros H Hd He.
  destruct u as [su|su| |su mu eu], v as [sv|sv| |sv mv ev]; try discriminate H.
  cbn [SFdouble]. apply (SFdiv_shift su sv mu mv eu ev); try assumption. lia.
Qed.

(** The same for a product and the half of one factor. *)
Lemma SFmul_half_l (u v : spec_float) (s : bool) (m : positive) (e : Z) :
  SF64mul u v = S754_finite s m e ->
  Zpos (digits2_pos m) = 53 -> -1072 <= e ->
  SF64mul (SFhalf u) v = S754_finite s m (e - 1).
Proof.
  intros H Hd He.
  destruct u as [su|su| |su mu eu], v as [sv|sv| |sv mv ev]; try discriminate H.
  cbn [SFhalf]. unfold SF64mul, SFmul in H |- *.
  replace (eu - 1 + ev) with (eu + ev - 1) by lia.
  apply binary_round_aux_half; try assumption. lia.
Qed.

Lemma SFmul_half_r (u v : spec_float) (s : bool) (m : positive) (e : Z) :
  SF64mul u v = S754_finite s m e ->
  Zpos (digits2_pos m) = 53 -> -1072 <= e ->
  SF64mul u (SFhalf v) = S754_finite s m (e - 1).
Proof.
  intros H Hd He.
  destruct u as [su|su| |su mu eu], v as [sv|sv| |sv mv ev]; try discriminate H.
  cbn [SFhalf]. unfold SF64mul, SFmul in H |- *.
  replace (eu + (ev - 1)) with (eu + ev - 1) by lia.
  apply binary_round_aux_half; try assumption. lia.
Qed.

(** The double of a normal number. *)
Lemma SFmul_two (s : bool) (m : positive) (e : Z) :
  Zpos (digits2_pos m) = 53 ->
  bounded prec emax m e = true ->
  SF64mul (S754_finite false 4503599627370496 (-51)) (S754_finite s m e) =
  if e + 1 <=? 971 then S754_finite s m (e + 1) else S754_infinity s.
Proof.
  intros Hd Hb. apply andb_prop in Hb. destruct Hb as [Hc He].
  pose proof (canonical_eq m e Hc) as H.
  assert (Hc1 : canonical_mantissa prec emax m (e + 1) = true).
  { unfold canonical_mantissa. rewrite fexp_eq. apply Z.eqb_eq. lia. }
  unfold SF64mul, SFmul. cbn [xorb Pos.mul].
  unfold binary_round_aux.
  match goal with
  | |- context [shr_fexp prec emax ?M ?E loc_Exact] =>
      assert (H1 : shr_fexp prec emax M E loc_Exact =
                   ({| shr_m := Zpos m; shr_r := false; shr_s := false |},
                    e + 1))
  end.
  { unfold shr_fexp. cbn [Zdigits2 shr_record_of_loc digits2_pos].
    rewrite fexp_eq.
    match goal with
    | |- shr _ _ ?n = _ => replace n with 52 by lia
    end.
    unfold shr. f_equal. lia. }
  rewrite H1. cbn [shr_m loc_of_shr_record round_nearest_even].
  rewrite (shr_fexp_exact m (e + 1) Hc1). reflexivity.
Qed.

(** An ample [double] is a normal number with an exponent of [-1071] at
    least. *)
Lemma ample_SF (v : float) :
  ample v = true ->
  exists s m e,
    Prim2SF v = S754_finite s m e /\
    Zpos (digits2_pos m) = 53 /\ -1071 <= e /\ bounded prec emax m e = true.
Proof.
  unfold ample. rewrite leb_spec, ltb_spec, abs_spec.
  change (Prim2SF 0x1p-1019) with (S754_finite false 4503599627370496 (-1071)).
  change (Prim2SF infinity) with (S754_infinity false).
  pose proof (Prim2SF_valid v) as Hv.
  destruct (Prim2SF v) as [s|s| |s m e]; cbn [SFabs]; intros H;
    apply andb_prop in H; destruct H as [H1 H2]; try discriminate.
  exists s, m, e. cbn [valid_binary] in Hv.
  assert (He : -1071 <= e).
  { unfold SFleb, SFcompare in H1.
    destruct (Z.compare_spec (-1071) e); try lia; discriminate H1. }
  split; [reflexivity|]. split; [|split; [exact He|exact Hv]].
  apply andb_prop in Hv. destruct Hv as [Hc _].
  pose proof (canonical_eq m e Hc). lia.
Qed.

(** Halving an ample number and doubling one without overflow are exact. *)
Lemma half_spec (v : float) :
  ample v = true -> Prim2SF (v / 2) = SFhalf (Prim2SF v).
Proof.
  intros Hv. destruct (ample_SF v Hv) as (s & m & e & Hsf & Hd & He & Hb).
  rewrite div_spec, Hsf.
  change (Prim2SF 2) with (SFdouble (S754_finite false 4503599627370496 (-52))).
  apply SFdiv_double_divisor; try assumption.
  apply SFdiv_one. exact Hb.
Qed.

Lemma double_spec (v : float) :
  ample v = true -> is_finite (2 * v) = true ->
  Prim2SF (2 * v) = SFdouble (Prim2SF v).
Proof.
  intros Hv Hf. destruct (ample_SF v Hv) as (s & m & e & Hsf & Hd & He & Hb).
  apply is_finite_SFfinite in Hf. rewrite mul_spec, Hsf in *.
  change (Prim2SF 2) with (S754_finite false 4503599627370496 (-51)) in *.
  rewrite (SFmul_two s m e Hd Hb) in *.
  destruct (e + 1 <=? 971); [reflexivity|discriminate Hf].
Qed.

(** In binary64, doubling the divisor or halving the dividend halves an
    ample quotient, and halving a factor halves an ample product. *)
Lemma div_double_divisor (a r : float) :
  ample r = true -> is_finite (2 * r) = true -> ample (a / r) = true ->
  (a / (2 * r) = a / r / 2)%float.
Proof.
  intros Hr Hf Hq. apply Prim2SF_inj.
  rewrite (half_spec _ Hq), div_spec, (double_spec r Hr Hf).
  destruct (ample_SF _ Hq) as (s & m & e & Hsf & Hd & He & _).
  rewrite Hsf. rewrite div_spec in Hsf.
  now apply SFdiv_double_divisor.
Qed.

Lemma div_half_dividend (c b : float) :
  ample c = true -> ample (c / b) = true ->
  (c / 2 / b = c / b / 2)%float.
Proof.
  intros Hc Hq. apply Prim2SF_inj.
  rewrite (half_spec _ Hq), div_spec, (half_spec c Hc).
  destruct (ample_SF _ Hq) as (s & m & e & Hsf & Hd & He & _).
  rewrite Hsf. rewrite div_spec in Hsf.
  now apply SFdiv_half_dividend.
Qed.

Lemma mul_half_r (v n : float) :
  ample n = true -> ample (v * n) = true ->
  (v * (n / 2) = v * n / 2)%float.
Proof.
  intros Hn Hp. apply Prim2SF_inj.
  rewrite (half_spec _ Hp), mul_spec, (half_spec n Hn).
  destruct (ample_SF _ Hp) as (s & m & e & Hsf & Hd & He & _).
  rewrite Hsf. rewrite mul_spec in Hsf.
  apply SFmul_half_r; try assumption. lia.
Qed.

Lemma mul_half_l (p g : float) :
  ample p = true -> ample (p * g) = true ->
  (p / 2 * g = p * g / 2)%float.
Proof.
  intros Hn Hp. apply Prim2SF_inj.
  rewrite (half_spec _ Hp), mul_spec, (half_spec p Hn).
  destruct (ample_SF _ Hp) as (s & m & e & Hsf & Hd & He & _).
  rewrite Hsf. rewrite mul_spec in Hsf.
  apply SFmul_half_l; try assumption. lia.
Qed.

(** Halving the other factor of a zero changes nothing. *)
Lemma mul_half_l_zero (p g : float) :
  ample p = true -> is_zero g = true ->
  (p / 2 * g = p * g / 2)%float.
Proof.
  intros Hp Hg. apply Prim2SF_inj.
  rewrite div_spec, !mul_spec, (half_spec p Hp).
  rewrite is_zero_SFzero in Hg.
  destruct (ample_SF p Hp) as (s & m & e & Hsf & _). rewrite Hsf.
  destruct (Prim2SF g) as [sg|sg| |sg mg eg]; try discriminate Hg.
  change (Prim2SF 2) with (S754_finite false 4503599627370496 (-51)).
  destruct s, sg; reflexivity.
Qed.

End Binary64Facts.

(** ** Affine fields *)

Section Affine.

Context {T : Type} {ops : DoubleOps T}.
Local Open Scope dbl_scope.


End Affine.

(** ** Uniform fields *)

Section Uniform.

Variable libm_sin : float -> float.

Local Hint Extern 0 (DoubleOps float) =>
  exact (binary64 libm_sin) : typeclass_instances.

(** On a uniform field every component that [GetTracerGradient] computes
    is a zero, when the double of the value does not overflow and the
    inverse widths and spacings are finite. *)
Lemma GetTracerGradient_uniform
    (cfg : Config) (h : Host float) (Field : Z -> Z -> Z -> float)
    (gradField : Z -> Z -> float) (beg end_ : Z) (grid : Grid float)
    (c0 : float) (n c : Z) :
  GEOMETRY cfg = CARTESIAN \/ GEOMETRY cfg = CYLINDRICAL ->
  (forall k j i, Field k j i = c0) ->
  is_finite (c0 + c0) = true ->
  (forall d p, is_finite (inv_dx grid d p) = true) ->
  (forall d p, is_finite (inv_dxi grid d p) = true) ->
  beg <= n <= end_ ->
  computed cfg (g_dir h) c = true ->
  is_zero (GetTracerGradient cfg h Field gradField beg end_ grid n c) = true.
Proof.
  intros Hgeo HF Hc0 Hdx Hdxi Hin Hcomp.
  destruct (computed_cases _ _ _ Hcomp) as [[E|[E|E]] Hc];
    rewrite E in Hcomp; open_row Hin E; rewrite !HF;
    unfold computed in Hcomp; cbn [Z.eqb IDIR JDIR KDIR Pos.eqb orb] in Hcomp.
  - destruct (DIMENSIONS cfg), Hgeo as [Hg|Hg]; rewrite ?Hg;
      destruct Hc as [-> | [-> | ->]]; try discriminate Hcomp;
      rewrite ?upd_same; unfold upd; cbn [Z.eqb Pos.eqb]; to_float;
      first [ apply sweep_zero; [now apply is_finite_add_self|apply Hdxi]
            | now apply transverse_zero ].
  - destruct (DIMENSIONS cfg), Hgeo as [Hg|Hg]; rewrite ?Hg;
      destruct Hc as [-> | [-> | ->]]; try discriminate Hcomp;
      rewrite ?upd_same; unfold upd; cbn [Z.eqb Pos.eqb]; to_float;
      first [ apply sweep_zero; [now apply is_finite_add_self|apply Hdxi]
            | now apply transverse_zero ].
  - destruct Hgeo as [Hg|Hg]; rewrite ?Hg;
      destruct Hc as [-> | [-> | ->]];
      rewrite ?upd_same; unfold upd; cbn [Z.eqb Pos.eqb]; to_float;
      first [ apply sweep_zero; [now apply is_finite_add_self|apply Hdxi]
            | now apply transverse_zero ].
Qed.

(** C5, as the code has it.  Binary64, Cartesian or cylindrical geometry,
    any number of dimensions.  Let the tracer field be uniform for each
    species, with a value whose double does not overflow, and let the
    inverse widths and spacings of the grid be finite (neither infinite
    nor NaN).  Then every gradient component that [GetTracerGradient]
    computes is zero ([+0] or [-0]) at every [n] in [beg..end]: the
    components below [DIMENSIONS] in an [IDIR] or [JDIR] sweep, the three
    of them in a [KDIR] sweep; a component that is not computed keeps what
    the buffer held.  When the component of the sweep direction is among
    the computed ones, the flux that [RHS_TRACER_Flux] writes is zero at
    every cell of the range where the product of the interface density and
    the diffusivity is finite. *)
Theorem uniform_field_zero_gradient_and_flux
    (cfg : Config) (h : Host float) (fresh : Z -> Z -> Z -> float)
    (m : Memory float) (beg end_ : Z) (c0 : Z -> float) :
  GEOMETRY cfg = CARTESIAN \/ GEOMETRY cfg = CYLINDRICAL ->
  (forall trc k j i, TracerField m trc k j i = c0 trc) ->
  (forall trc, is_finite (c0 trc + c0 trc) = true) ->
  (forall d p, is_finite (inv_dx (grid m) d p) = true) ->
  (forall d p, is_finite (inv_dxi (grid m) d p) = true) ->
  (forall trc n c,
      beg <= n <= end_ ->
      (computed cfg (g_dir h) c = true ->
       is_zero (GetTracerGradient cfg h (TracerField m trc) (buffer fresh m trc)
                  beg end_ (grid m) n c) = true) /\
      (computed cfg (g_dir h) c = false ->
       GetTracerGradient cfg h (TracerField m trc) (buffer fresh m trc)
         beg end_ (grid m) n c = buffer fresh m trc n c)) /\
  (0 <= g_dir h <= 2 ->
   (g_dir h = JDIR -> DIMENSIONS cfg <> D1) ->
   forall i trc,
     beg <= i <= end_ ->
     0 <= trc < Z.of_nat (NTRACER cfg) ->
     is_finite (vi h (vn (sweep m)) (grid m) i RHO * nu_dye h) = true ->
     is_zero (tracer_flux (RHS_TRACER_Flux cfg h fresh m beg end_) i trc) = true).
Proof.
  intros Hgeo HF Hc0 Hdx Hdxi. split.
  - intros trc n c Hin. split; intros Hcomp.
    + now apply (GetTracerGradient_uniform cfg h _ _ beg end_ (grid m) (c0 trc)).
    + now apply GetTracerGradient_not_computed.
  - intros Hdir Hdim i trc Hin Htrc Hfin.
    rewrite RHS_TRACER_Flux_entry.
    rewrite (proj2 (in_range_true _ _ _) Hin), (proj2 (visited_all cfg trc) Htrc).
    cbn [andb]. to_float. apply mul_zero_r; [exact Hfin|].
    apply (GetTracerGradient_uniform cfg h _ _ beg end_ (grid m) (c0 trc));
      try assumption; [apply HF|apply Hc0|now apply computed_sweep].
Qed.

(** X20.  Binary64, Cartesian or cylindrical geometry.  Where the tracer
    takes the same finite value in the cells [i] and [i+1] of the sweep
    line, and [inv_dxi] is finite at [i], the component of the gradient
    along the sweep direction is zero at [i], whatever the field is
    elsewhere; the flux that [RHS_TRACER_Flux] writes at [i] is then zero
    when the product of the interface density and the diffusivity is
    finite: no tracer diffuses between two equal cells. *)
Theorem RHS_TRACER_Flux_equal_cells
    (cfg : Config) (h : Host float) (fresh : Z -> Z -> Z -> float)
    (m : Memory float) (beg end_ i trc : Z) :
  GEOMETRY cfg = CARTESIAN \/ GEOMETRY cfg = CYLINDRICAL ->
  0 <= g_dir h <= 2 ->
  (g_dir h = JDIR -> DIMENSIONS cfg <> D1) ->
  beg <= i <= end_ ->
  0 <= trc < Z.of_nat (NTRACER cfg) ->
  along h (TracerField m trc) (i + 1) = along h (TracerField m trc) i ->
  is_finite (along h (TracerField m trc) i) = true ->
  is_finite (inv_dxi (grid m) (g_dir h) i) = true ->
  is_zero (GetTracerGradient cfg h (TracerField m trc) (buffer fresh m trc)
             beg end_ (grid m) i (g_dir h)) = true /\
  (is_finite (vi h (vn (sweep m)) (grid m) i RHO * nu_dye h) = true ->
   is_zero (tracer_flux (RHS_TRACER_Flux cfg h fresh m beg end_) i trc) = true).
Proof.
  intros Hgeo Hdir Hdim Hin Htrc Heq Hfin Hdxi.
  assert (Hg : is_zero (GetTracerGradient cfg h (TracerField m trc)
                          (buffer fresh m trc) beg end_ (grid m) i (g_dir h))
               = true).
  { unfold along in Heq, Hfin.
    dir_cases h; rewrite E in *; open_row Hin E;
      cbn [Z.eqb IDIR JDIR KDIR Pos.eqb] in Heq, Hfin.
    - destruct (DIMENSIONS cfg), Hgeo as [Hg|Hg]; rewrite ?Hg;
        rewrite !upd_same; unfold upd; cbn [Z.eqb]; to_float;
        rewrite Heq; now apply sweep_zero.
    - destruct (DIMENSIONS cfg), Hgeo as [Hg|Hg]; rewrite ?Hg;
        try (exfalso; now apply Hdim);
        rewrite !upd_same; unfold upd; cbn [Z.eqb Pos.eqb]; to_float;
        rewrite Heq; now apply sweep_zero.
    - destruct Hgeo as [Hg|Hg]; rewrite ?Hg;
        rewrite !upd_same; to_float; rewrite Heq; now apply sweep_zero. }
  split; [exact Hg|].
  intros Hp. rewrite RHS_TRACER_Flux_entry.
  rewrite (proj2 (in_range_true _ _ _) Hin), (proj2 (visited_all cfg trc) Htrc).
  cbn [andb]. to_float. now apply mul_zero_r.
Qed.

End Uniform.

(** ** Dependence on the input parameters *)

Section Parameters.

Context {T : Type} {ops : DoubleOps T}.
Local Open Scope dbl_scope.

(** [GetTracerGradient] reads no input parameter. *)
Lemma GetTracerGradient_set_param
    (cfg : Config) (h : Host T) (p : Z) (v : T) (Field : Z -> Z -> Z -> T)
    (gradField : Z -> Z -> T) (beg end_ : Z) (grid : Grid T) :
  GetTracerGradient cfg (set_param h p v) Field gradField beg end_ grid =
  GetTracerGradient cfg h Field gradField beg end_ grid.
Proof. reflexivity. Qed.

(** The flux entry after a change of the input parameters: the interface
    density and the gradient are those of the unchanged host state. *)
Lemma flux_entry_params
    (cfg : Config) (h h' : Host T) (fresh : Z -> Z -> Z -> T) (m : Memory T)
    (beg end_ i trc : Z) :
  g_dir h' = g_dir h -> g_i h' = g_i h -> g_j h' = g_j h -> g_k h' = g_k h ->
  beg <= i <= end_ ->
  0 <= trc < Z.of_nat (NTRACER cfg) ->
  tracer_flux (RHS_TRACER_Flux cfg h' fresh m beg end_) i trc =
  vi h (vn (sweep m)) (grid m) i RHO ⊗ nu_dye h'
  ⊗ GetTracerGradient cfg h (TracerField m trc) (buffer fresh m trc)
      beg end_ (grid m) i (g_dir h).
Proof.
  intros Hd Hi Hj Hk Hin Htrc. rewrite RHS_TRACER_Flux_entry.
  rewrite (proj2 (in_range_true _ _ _) Hin), (proj2 (visited_all cfg trc) Htrc).
  cbn [andb]. unfold vi. rewrite Hd. f_equal.
  unfold GetTracerGradient, grad_body_IDIR, grad_body_JDIR, grad_body_KDIR.
  rewrite Hd, Hi, Hj, Hk. reflexivity.
Qed.

Lemma nu_dye_reynolds (h : Host T) (r : T) :
  nu_dye (set_param h REYNOLDS r) =
  (g_inputParam h LENGTH ⊗ (d_2 ⊗ g_inputParam h U_FLOW) ⊘ r)
  ⊘ (g_inputParam h LENGTH ⊗ g_inputParam h U_FLOW).
Proof.
  unfold nu_dye, chi, del_u, UNIT_LENGTH, UNIT_VELOCITY, set_param.
  cbn [g_inputParam]. unfold upd. cbn [Z.eqb LENGTH U_FLOW REYNOLDS Pos.eqb].
  reflexivity.
Qed.


End Parameters.

Section Scaling.

Variable libm_sin : float -> float.

Local Hint Extern 0 (DoubleOps float) =>
  exact (binary64 libm_sin) : typeclass_instances.

(** C6, as the code has it.  Binary64.  Let [REYNOLDS] be replaced by its
    double [2 * REYNOLDS], every other input unchanged.  When nothing
    overflows or underflows, the diffusivity [nu_dye] is exactly halved:
    it suffices that [2 * REYNOLDS] is finite and that [REYNOLDS], [chi]
    and [nu_dye] of the run are ample (finite and at least [2^-1019] in
    magnitude).  The flux that [RHS_TRACER_Flux] writes is then exactly
    halved at every cell of the range where the product of the interface
    density and [nu_dye] is ample and the flux is ample or the gradient
    along the sweep direction is zero. *)
Theorem reynolds_scaling
    (cfg : Config) (h : Host float) (fresh : Z -> Z -> Z -> float)
    (m : Memory float) (beg end_ : Z) :
  let Re := g_inputParam h REYNOLDS in
  let h2 := set_param h REYNOLDS (2 * Re)%float in
  let flux := fun h0 : Host float =>
    tracer_flux (RHS_TRACER_Flux cfg h0 fresh m beg end_) in
  ample Re = true ->
  is_finite (2 * Re) = true ->
  ample (chi h) = true ->
  ample (nu_dye h) = true ->
  nu_dye h2 = (nu_dye h / 2)%float /\
  (forall i trc,
      beg <= i <= end_ -> 0 <= trc < Z.of_nat (NTRACER cfg) ->
      ample (vi h (vn (sweep m)) (grid m) i RHO * nu_dye h) = true ->
      ample (flux h i trc) = true \/
      is_zero (GetTracerGradient cfg h (TracerField m trc) (buffer fresh m trc)
                 beg end_ (grid m) i (g_dir h)) = true ->
      flux h2 i trc = (flux h i trc / 2)%float).
Proof.
  intros Re h2 flux HRe Hfin Hchi Hnu.
  assert (Hnu2 : nu_dye h2 = (nu_dye h / 2)%float).
  { subst h2. rewrite nu_dye_reynolds.
    unfold nu_dye, chi, del_u, UNIT_LENGTH, UNIT_VELOCITY in *.
    fold Re in Hchi, Hnu |- *. to_float.
    rewrite (div_double_divisor _ Re HRe Hfin Hchi).
    now apply div_half_dividend. }
  split; [exact Hnu2|].
  intros i trc Hin Htrc Hp Hf. subst flux. cbv beta in *.
  rewrite (flux_entry_params cfg h h2 fresh m beg end_ i trc
             eq_refl eq_refl eq_refl eq_refl Hin Htrc).
  rewrite (flux_entry_params cfg h h fresh m beg end_ i trc
             eq_refl eq_refl eq_refl eq_refl Hin Htrc) in Hf |- *.
  rewrite Hnu2. to_float.
  rewrite (mul_half_r _ _ Hnu Hp).
  destruct Hf as [Hf|Hz].
  - now apply mul_half_l.
  - now apply mul_half_l_zero.
Qed.



End Scaling.

(** ** The concrete run *)

Section Run.

#[local] Existing Instance Scenario.ops.

(** Two [double] values differ when the comparison with the second one
    tells them apart. *)
Ltac differ c :=
  let H := fresh "H" in
  intro H; apply (f_equal (fun v => PrimFloat.eqb v c)) in H;
  vm_compute in H; discriminate H.

(** X19.  The end-to-end run of the specification, evaluated in binary64:
    Cartesian grid of spacing [0.01], tracer [1] and [2] in two adjacent
    cells along the sweep direction [IDIR], density [1], [REYNOLDS = 1e4],
    [U_FLOW = LENGTH = 1].  The gradient is [100] along the first axis and
    [0] across it, the diffusivity is [0.0002] and the flux is [0.02], each
    of them the [double] nearest to the decimal number. *)
Example scenario_flux :
  GetTracerGradient definitions_h (Scenario.host IDIR) (Scenario.step_field 0)
    (Scenario.sevens 0) 2 2 Scenario.uniform_grid 2 0 = 100%float /\
  GetTracerGradient definitions_h (Scenario.host IDIR) (Scenario.step_field 0)
    (Scenario.sevens 0) 2 2 Scenario.uniform_grid 2 1 = 0%float /\
  nu_dye (Scenario.host IDIR) = 0.0002%float /\
  tracer_flux
    (RHS_TRACER_Flux definitions_h (Scenario.host IDIR) Scenario.sevens
       (Scenario.mem Scenario.step_field) 2 2) 2 0 = 0.02%float.
Proof. repeat split; vm_compute; reflexivity. Qed.

Lemma RHS_TRACER_Flux_formula_witness :
  tracer_flux
    (RHS_TRACER_Flux definitions_h (Scenario.host IDIR) Scenario.sevens
       (Scenario.mem Scenario.step_field) 2 2) 2 0 = 0.02%float.
Proof.
  destruct (RHS_TRACER_Flux_formula definitions_h (Scenario.host IDIR)
              Scenario.sevens (Scenario.mem Scenario.step_field) 2 2 2 0)
    as [Hflux _]; [lia | cbn; lia |].
  rewrite Hflux. vm_compute. reflexivity.
Defined.

Lemma GetTracerGradient_sweep_component_witness :
  let F := Scenario.step_field 0 in
  let gF := Scenario.sevens 0 in
  GetTracerGradient definitions_h (Scenario.host IDIR) F gF 2 2
    Scenario.uniform_grid 2 0 = ((F 2%Z 2%Z (2 + 1)%Z - F 2%Z 2%Z 2%Z) * 100)%float /\
  GetTracerGradient definitions_h (Scenario.host JDIR) F gF 2 2
    Scenario.uniform_grid 2 1 = ((F 2%Z (2 + 1)%Z 2%Z - F 2%Z 2%Z 2%Z) * 100)%float /\
  GetTracerGradient definitions_h (Scenario.host KDIR) F gF 2 2
    Scenario.uniform_grid 2 2 = ((F (2 + 1)%Z 2%Z 2%Z - F 2%Z 2%Z 2%Z) * 100)%float.
Proof.
  intros F gF. split; [|split].
  - destruct (GetTracerGradient_sweep_component definitions_h
                (Scenario.host IDIR) F gF 2 2 Scenario.uniform_grid 2)
      as (HI & _); [reflexivity | discriminate | lia |].
    exact (HI eq_refl).
  - destruct (GetTracerGradient_sweep_component definitions_h
                (Scenario.host JDIR) F gF 2 2 Scenario.uniform_grid 2)
      as (_ & HJ & _); [reflexivity | discriminate | lia |].
    exact (HJ eq_refl).
  - destruct (GetTracerGradient_sweep_component definitions_h
                (Scenario.host KDIR) F gF 2 2 Scenario.uniform_grid 2)
      as (_ & _ & HK); [reflexivity | discriminate | lia |].
    exact (HK eq_refl).
Defined.

Lemma GetTracerGradient_transverse_components_witness :
  let F := Scenario.step_field 0 in
  let gF := Scenario.sevens 0 in
  GetTracerGradient definitions_h (Scenario.host IDIR) F gF 2 2
    Scenario.uniform_grid 2 1
  = (0.25 * (F 2%Z 3%Z 2%Z + F 2%Z 3%Z 3%Z
             - F 2%Z 1%Z 2%Z - F 2%Z 1%Z 3%Z) * 100)%float /\
  GetTracerGradient Scenario.three_dimensional (Scenario.host IDIR) F gF 2 2
    Scenario.uniform_grid 2 2
  = (0.25 * (F 3%Z 2%Z 2%Z + F 3%Z 2%Z 3%Z
             - F 1%Z 2%Z 2%Z - F 1%Z 2%Z 3%Z) * 100)%float /\
  GetTracerGradient definitions_h (Scenario.host JDIR) F gF 2 2
    Scenario.uniform_grid 2 0
  = (0.25 * (F 2%Z 2%Z 3%Z + F 2%Z 3%Z 3%Z
             - F 2%Z 2%Z 1%Z - F 2%Z 3%Z 1%Z) * 100)%float /\
  GetTracerGradient definitions_h (Scenario.host KDIR) F gF 2 2
    Scenario.uniform_grid 2 1
  = (0.25 * (F 2%Z 3%Z 2%Z + F 3%Z 3%Z 2%Z
             - F 2%Z 1%Z 2%Z - F 3%Z 1%Z 2%Z) * 100)%float.
Proof.
  intros F gF. split; [|split; [|split]].
  - destruct (GetTracerGradient_transverse_components definitions_h
                (Scenario.host IDIR) F gF 2 2 Scenario.uniform_grid 2)
      as (HI & _); [reflexivity | lia |].
    destruct (HI eq_refl) as [H1 _]. apply H1. discriminate.
  - destruct (GetTracerGradient_transverse_components
                Scenario.three_dimensional
                (Scenario.host IDIR) F gF 2 2 Scenario.uniform_grid 2)
      as (HI & _); [reflexivity | lia |].
    destruct (HI eq_refl) as [_ H2]. apply H2. reflexivity.
  - destruct (GetTracerGradient_transverse_components definitions_h
                (Scenario.host JDIR) F gF 2 2 Scenario.uniform_grid 2)
      as (_ & HJ & _); [reflexivity | lia |].
    destruct (HJ eq_refl) as [H0 _]. exact H0.
  - destruct (GetTracerGradient_transverse_components definitions_h
                (Scenario.host KDIR) F gF 2 2 Scenario.uniform_grid 2)
      as (_ & _ & HK); [reflexivity | lia |].
    destruct (HK eq_refl) as [_ H1]. exact H1.
Defined.



(** C5, counterexample.  In the configuration of [definitions.h] a sweep
    along the first axis over a uniform field leaves the third component of
    the gradient as the buffer held it: here [7], not zero.  A computed
    component is not zero either when the double of the uniform value
    overflows: for the value [2^1023] the transverse component is
    infinite.  And a zero gradient does not give a zero flux whatever the
    interface density: with the density [2^1023] on cells of width [49]
    the interface density is infinite and the flux is NaN. *)
Lemma uniform_field_third_component_kept :
  (forall k j i, Scenario.uniform_field 0 k j i = 1%float) /\
  GetTracerGradient definitions_h (Scenario.host IDIR)
    (Scenario.uniform_field 0) (Scenario.sevens 0) 2 2
    Scenario.uniform_grid 2 2 = 7%float /\
  is_zero
    (GetTracerGradient definitions_h (Scenario.host IDIR)
       (Scenario.uniform_field 0) (Scenario.sevens 0) 2 2
       Scenario.uniform_grid 2 2) = false /\
  GetTracerGradient definitions_h (Scenario.host IDIR)
    (Scenario.huge_field 0) (Scenario.sevens 0) 2 2
    Scenario.uniform_grid 2 1 = infinity /\
  is_zero
    (GetTracerGradient definitions_h (Scenario.host IDIR)
       (Scenario.uniform_field 0) (Scenario.sevens 0) 2 2
       Scenario.wide_grid 2 0) = true /\
  is_nan
    (tracer_flux
       (RHS_TRACER_Flux definitions_h (Scenario.host IDIR) Scenario.sevens
          (Scenario.heavy_mem Scenario.uniform_field) 2 2) 2 0) = true.
Proof.
  split; [reflexivity|]. repeat split; vm_compute; reflexivity.
Qed.

Lemma uniform_field_zero_gradient_and_flux_witness :
  is_zero
    (GetTracerGradient definitions_h (Scenario.host IDIR)
       (Scenario.uniform_field 0) (Scenario.sevens 0) 2 2
       Scenario.uniform_grid 2 1) = true /\
  GetTracerGradient definitions_h (Scenario.host IDIR)
    (Scenario.uniform_field 0) (Scenario.sevens 0) 2 2
    Scenario.uniform_grid 2 2 = 7%float /\
  is_zero
    (tracer_flux
       (RHS_TRACER_Flux definitions_h (Scenario.host IDIR) Scenario.sevens
          (Scenario.mem Scenario.uniform_field) 2 2) 2 0) = true.
Proof.
  destruct (uniform_field_zero_gradient_and_flux (fun _ => nan) definitions_h
              (Scenario.host IDIR) Scenario.sevens
              (Scenario.mem Scenario.uniform_field) 2 2 (fun _ => 1%float))
    as [Hgrad Hflux]; try reflexivity.
  - left. reflexivity.
  - split; [|split].
    + apply (Hgrad 0 2 1); [lia | reflexivity].
    + apply (Hgrad 0 2 2); [lia | reflexivity].
    + apply Hflux; [change (0 <= 0 <= 2); lia | discriminate | lia | cbn; lia
                    | vm_compute; reflexivity].
Defined.

(** C6, counterexample.  With the density [3], the flux written for
    [REYNOLDS = 10] is [60.00000000000001], and one tenth of the flux
    written for [REYNOLDS = 1] is [60]: the flux is not linear in
    [1/REYNOLDS].  And the double of [REYNOLDS = 2^1023] overflows to
    infinity: the diffusivity goes from [2^-1022] to [0], not to its
    half. *)
Lemma reynolds_scaling_rounded :
  let h := Scenario.host IDIR in
  let flux := fun r =>
    tracer_flux (RHS_TRACER_Flux definitions_h (set_param h REYNOLDS r)
                   Scenario.sevens (Scenario.dense_mem Scenario.step_field)
                   2 2) 2 0 in
  flux 10%float = 60.00000000000001%float /\
  (1 / 10 * flux 1)%float = 60%float /\
  flux 10%float <> (1 / 10 * flux 1)%float /\
  nu_dye (set_param h REYNOLDS 0x1p1023%float) = 0x1p-1022%float /\
  nu_dye (set_param h REYNOLDS (2 * 0x1p1023)%float) = 0%float /\
  nu_dye (set_param h REYNOLDS (2 * 0x1p1023)%float)
  <> (nu_dye (set_param h REYNOLDS 0x1p1023%float) / 2)%float.
Proof.
  cbv zeta. split; [vm_compute; reflexivity|]. split; [vm_compute; reflexivity|].
  split; [differ 60%float|]. split; [vm_compute; reflexivity|].
  split; [vm_compute; reflexivity|]. differ 0%float.
Qed.

Lemma reynolds_scaling_witness :
  let h := Scenario.host IDIR in
  let m := Scenario.mem Scenario.step_field in
  let h2 := set_param h REYNOLDS (2 * g_inputParam h REYNOLDS)%float in
  g_inputParam h2 REYNOLDS = 20000%float /\
  nu_dye h2 = (nu_dye h / 2)%float /\
  tracer_flux (RHS_TRACER_Flux definitions_h h2 Scenario.sevens m 2 2) 2 0
  = (tracer_flux (RHS_TRACER_Flux definitions_h h Scenario.sevens m 2 2) 2 0
     / 2)%float.
Proof.
  intros h m h2.
  destruct (reynolds_scaling (fun _ => nan) definitions_h h Scenario.sevens
              m 2 2) as (Hnu & Hflux); try (vm_compute; reflexivity).
  split; [vm_compute; reflexivity|]. split; [exact Hnu|].
  apply (Hflux 2 0); [lia | cbn; lia | vm_compute; reflexivity |].
  left. vm_compute. reflexivity.
Defined.

Lemma RHS_TRACER_Flux_frame_witness :
  let m := Scenario.mem Scenario.step_field in
  let m' := RHS_TRACER_Flux definitions_h (Scenario.host IDIR)
              Scenario.sevens m 2 2 in
  tracer_flux m' 3 0 = (-1)%float /\ tracer_flux m' 1 0 = (-1)%float /\
  tracer_flux m' 2 1 = (-1)%float /\
  TracerField m' = TracerField m /\ sweep m' = sweep m /\ grid m' = grid m.
Proof.
  intros m m'.
  destruct (RHS_TRACER_Flux_frame definitions_h (Scenario.host IDIR)
              Scenario.sevens m 2 2) as (Hi & Htrc & Hrest).
  split; [|split; [|split]].
  - apply (Hi 3 0). lia.
  - apply (Hi 1 0). lia.
  - apply (Htrc 2 1). cbn. lia.
  - exact Hrest.
Defined.

(** C8, counterexample.  With [beg = end = 2] the half-open range is empty,
    yet the call overwrites [tracer_flux[2][0]]; and the value it writes
    depends on the tracer field at the index [3]: the step field and the
    uniform field agree at every index up to [2] and give different
    fluxes. *)
Lemma half_open_range_counterexample :
  ~ (2 <= 2 < 2) /\
  tracer_flux
    (RHS_TRACER_Flux definitions_h (Scenario.host IDIR) Scenario.sevens
       (Scenario.mem Scenario.step_field) 2 2) 2 0
  <> tracer_flux (Scenario.mem Scenario.step_field) 2 0 /\
  (forall trc k j i,
      i <= 2 ->
      Scenario.step_field trc k j i = Scenario.uniform_field trc k j i) /\
  tracer_flux
    (RHS_TRACER_Flux definitions_h (Scenario.host IDIR) Scenario.sevens
       (Scenario.mem Scenario.step_field) 2 2) 2 0
  <> tracer_flux
       (RHS_TRACER_Flux definitions_h (Scenario.host IDIR) Scenario.sevens
          (Scenario.mem Scenario.uniform_field) 2 2) 2 0.
Proof.
  split; [lia|]. split; [|split].
  - differ (-1)%float.
  - intros trc k j i Hi. unfold Scenario.step_field, Scenario.uniform_field.
    apply Z.leb_le in Hi. now rewrite Hi.
  - differ 0%float.
Qed.

Lemma RHS_TRACER_Flux_footprint_witness :
  tracer_flux
    (RHS_TRACER_Flux definitions_h (Scenario.host IDIR) Scenario.sevens
       (Scenario.mem Scenario.step_field) 2 2) 2 0 =
  tracer_flux
    (RHS_TRACER_Flux definitions_h (Scenario.host IDIR) Scenario.sevens
       (Scenario.mem Scenario.far_field) 2 2) 2 0 /\
  buffer Scenario.sevens
    (RHS_TRACER_Flux definitions_h (Scenario.host IDIR) Scenario.sevens
       (Scenario.mem Scenario.step_field) 2 2) 0 3 0 = 7%float.
Proof.
  destruct (RHS_TRACER_Flux_footprint definitions_h (Scenario.host IDIR) 2 2
              Scenario.sevens (Scenario.mem Scenario.step_field)
              (Scenario.mem Scenario.far_field))
    as (Hflux & _ & _ & Hbuf).
  - intros trc k j i Hi.
    change (2 <= i <= 2 + 1) in Hi.
    change (Scenario.step_field trc k j i = Scenario.far_field trc k j i).
    unfold Scenario.step_field, Scenario.far_field.
    destruct (Z.leb_spec i 2); [reflexivity|].
    destruct (Z.leb_spec i 3); [reflexivity|lia].
  - reflexivity.
  - repeat split; reflexivity.
  - reflexivity.
  - reflexivity.
  - split; [apply Hflux|]. apply (Hbuf 0 3 0). lia.
Defined.

Lemma RHS_TRACER_Flux_buffer_independent_witness :
  tracer_flux
    (RHS_TRACER_Flux definitions_h (Scenario.host JDIR) Scenario.sevens
       (set_gradTRC (Scenario.mem Scenario.step_field) None) 2 2) 2 0 =
  tracer_flux
    (RHS_TRACER_Flux definitions_h (Scenario.host JDIR) Scenario.sevens
       (set_gradTRC (Scenario.mem Scenario.step_field)
          (Some (fun _ _ _ => 3%float))) 2 2) 2 0.
Proof.
  apply (RHS_TRACER_Flux_buffer_independent definitions_h (Scenario.host JDIR)).
  - change (0 <= 1 <= 2). lia.
  - intros _. discriminate.
Defined.



End Run.

(** ** Further properties: what the gradient routine writes and reads *)

Section GradientFootprint.

Context {T : Type} {ops : DoubleOps T}.
Local Open Scope dbl_scope.

(** A computed component does not depend on what the buffer held. *)
Lemma GetTracerGradient_computed_fresh
    (cfg : Config) (h : Host T) (Field : Z -> Z -> Z -> T)
    (gF1 gF2 : Z -> Z -> T) (beg end_ : Z) (grid : Grid T) (n c : Z) :
  computed cfg (g_dir h) c = true ->
  beg <= n <= end_ ->
  GetTracerGradient cfg h Field gF1 beg end_ grid n c =
  GetTracerGradient cfg h Field gF2 beg end_ grid n c.
Proof.
  intros Hcomp Hin.
  destruct (computed_cases _ _ _ Hcomp) as [[E|[E|E]] Hc];
    rewrite E in Hcomp; rewrite !GetTracerGradient_row;
    rewrite (proj2 (in_range_true _ _ _) Hin), E;
    cbn [Z.eqb IDIR JDIR KDIR Pos.eqb];
    unfold row_of, grad_body_IDIR, grad_body_JDIR, grad_body_KDIR,
      DIM_EXPAND, upd2; cbv zeta;
    unfold computed in Hcomp; cbn [Z.eqb IDIR JDIR KDIR Pos.eqb orb] in Hcomp.
  - destruct (DIMENSIONS cfg); destruct Hc as [-> | [-> | ->]];
      try discriminate Hcomp; rewrite !upd_same; reflexivity.
  - destruct (DIMENSIONS cfg); destruct Hc as [-> | [-> | ->]];
      try discriminate Hcomp; rewrite !upd_same; reflexivity.
  - destruct Hc as [-> | [-> | ->]]; rewrite !upd_same; reflexivity.
Qed.

Ltac in_stencil_tac E Hd :=
  unfold in_stencil, reach; rewrite E, ?Hd;
  cbn [Z.eqb IDIR JDIR KDIR Pos.eqb]; lia.

Ltac fields_agree HF F1 E Hd :=
  repeat match goal with
         | |- context [F1 ?k ?j ?i] =>
             rewrite (HF k j i) by in_stencil_tac E Hd
         end.

Ltac rows_agree HgF c :=
  rewrite !upd_same; unfold upd;
  repeat match goal with |- context [c =? ?v] => destruct (c =? v) end;
  try reflexivity; apply HgF.

(** The entry [n][c] of the gradient after the call is determined by the
    field on the stencil at [n], the metrics at [n], whether [n] is in the
    range, and the entry before the call. *)
Lemma GetTracerGradient_local
    (cfg : Config) (h : Host T) (F1 F2 : Z -> Z -> Z -> T)
    (gF1 gF2 : Z -> Z -> T) (b1 e1 b2 e2 : Z) (g1 g2 : Grid T) (n c : Z) :
  in_range b1 e1 n = in_range b2 e2 n ->
  (forall k j i, in_stencil cfg h n k j i -> F1 k j i = F2 k j i) ->
  inv_dxi g1 (g_dir h) n = inv_dxi g2 (g_dir h) n ->
  (forall d p, inv_dx g1 d p = inv_dx g2 d p) ->
  (forall d p, x g1 d p = x g2 d p) ->
  (forall d p, xr g1 d p = xr g2 d p) ->
  gF1 n c = gF2 n c ->
  GetTracerGradient cfg h F1 gF1 b1 e1 g1 n c =
  GetTracerGradient cfg h F2 gF2 b2 e2 g2 n c.
Proof.
  intros Hrange HF Hdxi Hinv Hx Hxr HgF.
  rewrite !GetTracerGradient_row, Hrange.
  destruct (in_range b2 e2 n); [|exact HgF].
  destruct (Z.eqb_spec (g_dir h) IDIR) as [E|_];
    [|destruct (Z.eqb_spec (g_dir h) JDIR) as [E|_];
      [|destruct (Z.eqb_spec (g_dir h) KDIR) as [E|_]; [|exact HgF]]];
    rewrite E in Hdxi;
    unfold row_of, grad_body_IDIR, grad_body_JDIR, grad_body_KDIR,
      DIM_EXPAND, upd2; cbv zeta;
    rewrite ?Hinv, ?Hx, ?Hxr, ?Hdxi.
  - destruct (DIMENSIONS cfg) eqn:Hd; fields_agree HF F1 E Hd; rows_agree HgF c.
  - destruct (DIMENSIONS cfg) eqn:Hd; fields_agree HF F1 E Hd; rows_agree HgF c.
  - assert (Hd : True) by exact I.
    fields_agree HF F1 E Hd; rows_agree HgF c.
Qed.

(** The same, with the metrics that the row [n] is made of and no
    other. *)
Lemma GetTracerGradient_local_metrics
    (cfg : Config) (h : Host T) (F1 F2 : Z -> Z -> Z -> T)
    (gF1 gF2 : Z -> Z -> T) (b1 e1 b2 e2 : Z) (g1 g2 : Grid T) (n c : Z) :
  in_range b1 e1 n = in_range b2 e2 n ->
  (forall k j i, in_stencil cfg h n k j i -> F1 k j i = F2 k j i) ->
  metrics_agree h n g1 g2 ->
  gF1 n c = gF2 n c ->
  GetTracerGradient cfg h F1 gF1 b1 e1 g1 n c =
  GetTracerGradient cfg h F2 gF2 b2 e2 g2 n c.
Proof.
  intros Hrange HF (Hdxi & Hxr & Hax) HgF.
  rewrite !GetTracerGradient_row, Hrange.
  destruct (in_range b2 e2 n); [|exact HgF].
  assert (HI : IDIR <> g_dir h -> inv_dx g1 IDIR (g_i h) = inv_dx g2 IDIR (g_i h)
                                  /\ x g1 IDIR (g_i h) = x g2 IDIR (g_i h))
    by (intros Hne; apply (Hax IDIR); [unfold IDIR; lia|exact Hne]).
  assert (HJ : JDIR <> g_dir h -> inv_dx g1 JDIR (g_j h) = inv_dx g2 JDIR (g_j h)
                                  /\ x g1 JDIR (g_j h) = x g2 JDIR (g_j h))
    by (intros Hne; apply (Hax JDIR); [unfold JDIR; lia|exact Hne]).
  assert (HK : KDIR <> g_dir h -> inv_dx g1 KDIR (g_k h) = inv_dx g2 KDIR (g_k h)
                                  /\ x g1 KDIR (g_k h) = x g2 KDIR (g_k h))
    by (intros Hne; apply (Hax KDIR); [unfold KDIR; lia|exact Hne]).
  clear Hax.
  destruct (Z.eqb_spec (g_dir h) IDIR) as [E|_];
    [|destruct (Z.eqb_spec (g_dir h) JDIR) as [E|_];
      [|destruct (Z.eqb_spec (g_dir h) KDIR) as [E|_]; [|exact HgF]]];
    rewrite E in Hdxi, Hxr, HI, HJ, HK;
    unfold row_of, grad_body_IDIR, grad_body_JDIR, grad_body_KDIR,
      DIM_EXPAND, upd2; cbv zeta.
  - destruct (HJ ltac:(discriminate)) as [Hi1 Hx1].
    destruct (HK ltac:(discriminate)) as [Hi2 Hx2].
    rewrite ?Hi1, ?Hx1, ?Hi2, ?Hx2, ?Hdxi, ?Hxr.
    destruct (DIMENSIONS cfg) eqn:Hd; fields_agree HF F1 E Hd; rows_agree HgF c.
  - destruct (HI ltac:(discriminate)) as [Hi1 Hx1].
    destruct (HK ltac:(discriminate)) as [Hi2 Hx2].
    rewrite ?Hi1, ?Hx1, ?Hi2, ?Hx2, ?Hdxi, ?Hxr.
    destruct (DIMENSIONS cfg) eqn:Hd; fields_agree HF F1 E Hd; rows_agree HgF c.
  - destruct (HI ltac:(discriminate)) as [Hi1 Hx1].
    destruct (HJ ltac:(discriminate)) as [Hi2 Hx2].
    rewrite ?Hi1, ?Hx1, ?Hi2, ?Hx2, ?Hdxi, ?Hxr.
    assert (Hd : True) by exact I.
    fields_agree HF F1 E Hd; rows_agree HgF c.
Qed.

End GradientFootprint.

(** ** Further properties: repeated and split calls *)

Section Calls.

Context {T : Type} {ops : DoubleOps T}.
Local Open Scope dbl_scope.

Variables (cfg : Config) (h : Host T).

(** The buffer that a later call finds, species by species. *)
Lemma RHS_TRACER_Flux_buffer_row
    (fresh fresh' : Z -> Z -> Z -> T) (m : Memory T) (beg end_ trc : Z) :
  buffer fresh' (RHS_TRACER_Flux cfg h fresh m beg end_) trc =
  if visited 0 (NTRACER cfg) trc
  then GetTracerGradient cfg h (TracerField m trc) (buffer fresh m trc)
         beg end_ (grid m)
  else buffer fresh m trc.
Proof.
  destruct (RHS_TRACER_Flux_buffer cfg h fresh m beg end_) as [b [Hb Hrow]].
  unfold buffer at 1. rewrite Hb. apply Hrow.
Qed.

(** The row of the gradient depends on the range through the membership of
    its index only. *)
Lemma GetTracerGradient_range
    (Field : Z -> Z -> Z -> T) (gF : Z -> Z -> T) (g : Grid T)
    (b1 e1 b2 e2 n : Z) :
  in_range b1 e1 n = in_range b2 e2 n ->
  GetTracerGradient cfg h Field gF b1 e1 g n =
  GetTracerGradient cfg h Field gF b2 e2 g n.
Proof.
  intros Hr. rewrite !GetTracerGradient_row, Hr. reflexivity.
Qed.

Lemma GetTracerGradient_idem
    (Field : Z -> Z -> Z -> T) (gF : Z -> Z -> T) (g : Grid T)
    (beg end_ n c : Z) :
  GetTracerGradient cfg h Field
    (GetTracerGradient cfg h Field gF beg end_ g) beg end_ g n c =
  GetTracerGradient cfg h Field gF beg end_ g n c.
Proof.
  destruct (in_range beg end_ n) eqn:Hin.
  - apply in_range_true in Hin.
    destruct (computed cfg (g_dir h) c) eqn:Hc.
    + now apply GetTracerGradient_computed_fresh.
    + now rewrite GetTracerGradient_not_computed.
  - apply in_range_false in Hin. now rewrite GetTracerGradient_outside.
Qed.

Lemma in_range_split (beg mid end_ n : Z) :
  beg - 1 <= mid <= end_ ->
  in_range beg end_ n = in_range beg mid n || in_range (mid + 1) end_ n.
Proof.
  intros Hmid. unfold in_range.
  destruct (Z.leb_spec beg n), (Z.leb_spec n end_), (Z.leb_spec n mid),
    (Z.leb_spec (mid + 1) n); cbn; try reflexivity; lia.
Qed.

Lemma in_range_disjoint (beg mid end_ n : Z) :
  in_range beg mid n = true -> in_range (mid + 1) end_ n = false.
Proof.
  unfold in_range.
  destruct (Z.leb_spec beg n), (Z.leb_spec n mid), (Z.leb_spec (mid + 1) n);
    cbn; try reflexivity; try discriminate; lia.
Qed.

Lemma GetTracerGradient_split
    (Field : Z -> Z -> Z -> T) (gF : Z -> Z -> T) (g : Grid T)
    (beg mid end_ n : Z) :
  beg - 1 <= mid <= end_ ->
  GetTracerGradient cfg h Field
    (GetTracerGradient cfg h Field gF beg mid g) (mid + 1) end_ g n =
  GetTracerGradient cfg h Field gF beg end_ g n.
Proof.
  intros Hmid. rewrite !GetTracerGradient_row.
  rewrite (in_range_split beg mid end_ n Hmid).
  destruct (in_range beg mid n) eqn:H1.
  - rewrite (in_range_disjoint _ _ end_ _ H1). reflexivity.
  - cbn [orb]. reflexivity.
Qed.

(** X1.  A call over an empty range, [end < beg], leaves every entry of
    the flux array and of the gradient buffer as it was: the only effect
    left is the allocation of the buffer. *)
Theorem RHS_TRACER_Flux_empty_range
    (fresh : Z -> Z -> Z -> T) (m : Memory T) (beg end_ : Z) :
  end_ < beg ->
  let m' := RHS_TRACER_Flux cfg h fresh m beg end_ in
  (forall i trc, tracer_flux m' i trc = tracer_flux m i trc) /\
  (forall trc n c, buffer fresh m' trc n c = buffer fresh m trc n c) /\
  gradTRC m' <> None.
Proof.
  intros Hempty m'. subst m'. split; [|split].
  - intros i trc. rewrite RHS_TRACER_Flux_entry.
    replace (in_range beg end_ i) with false; [reflexivity|].
    symmetry. apply in_range_false. lia.
  - intros trc n c. rewrite RHS_TRACER_Flux_buffer_row.
    destruct (visited 0 (NTRACER cfg) trc); [|reflexivity].
    rewrite GetTracerGradient_outside; [reflexivity|lia].
  - destruct (RHS_TRACER_Flux_buffer cfg h fresh m beg end_) as [b [Hb _]].
    rewrite Hb. discriminate.
Qed.

(** X2.  Calling [RHS_TRACER_Flux] again with the same arguments on the
    memory it returned changes neither the flux array nor the gradient
    buffer, and the second call does not allocate: what [ARRAY_3D] would
    return plays no part. *)
Theorem RHS_TRACER_Flux_idempotent
    (fresh fresh' : Z -> Z -> Z -> T) (m : Memory T) (beg end_ : Z) :
  let m1 := RHS_TRACER_Flux cfg h fresh m beg end_ in
  let m2 := RHS_TRACER_Flux cfg h fresh' m1 beg end_ in
  (forall i trc, tracer_flux m2 i trc = tracer_flux m1 i trc) /\
  (forall trc n c, buffer fresh' m2 trc n c = buffer fresh m1 trc n c).
Proof.
  intros m1 m2. subst m1 m2. split.
  - intros i trc. rewrite RHS_TRACER_Flux_entry.
    destruct (in_range beg end_ i && visited 0 (NTRACER cfg) trc) eqn:Hc;
      [|reflexivity].
    rewrite RHS_TRACER_Flux_buffer_row.
    rewrite (RHS_TRACER_Flux_entry cfg h fresh m), Hc.
    apply andb_true_iff in Hc. destruct Hc as [_ Hv]. rewrite Hv.
    change (TracerField (RHS_TRACER_Flux cfg h fresh m beg end_))
      with (TracerField m).
    change (grid (RHS_TRACER_Flux cfg h fresh m beg end_)) with (grid m).
    change (sweep (RHS_TRACER_Flux cfg h fresh m beg end_)) with (sweep m).
    now rewrite GetTracerGradient_idem.
  - intros trc n c. rewrite !RHS_TRACER_Flux_buffer_row.
    destruct (visited 0 (NTRACER cfg) trc); [|reflexivity].
    change (TracerField (RHS_TRACER_Flux cfg h fresh m beg end_))
      with (TracerField m).
    change (grid (RHS_TRACER_Flux cfg h fresh m beg end_)) with (grid m).
    apply GetTracerGradient_idem.
Qed.

(** X3.  A sweep can be split: a call over [beg..mid] followed by a call
    over [mid+1..end] leaves the same flux array and the same gradient
    buffer as one call over [beg..end], for every [mid] from [beg-1] to
    [end]. *)
Theorem RHS_TRACER_Flux_split
    (fresh fresh' : Z -> Z -> Z -> T) (m : Memory T) (beg mid end_ : Z) :
  beg - 1 <= mid <= end_ ->
  let m1 := RHS_TRACER_Flux cfg h fresh m beg mid in
  let m2 := RHS_TRACER_Flux cfg h fresh' m1 (mid + 1) end_ in
  let m' := RHS_TRACER_Flux cfg h fresh m beg end_ in
  (forall i trc, tracer_flux m2 i trc = tracer_flux m' i trc) /\
  (forall trc n c, buffer fresh m2 trc n c = buffer fresh m' trc n c).
Proof.
  intros Hmid m1 m2 m'. subst m1 m2 m'. split.
  - intros i trc. rewrite !RHS_TRACER_Flux_entry.
    rewrite RHS_TRACER_Flux_buffer_row.
    change (TracerField (RHS_TRACER_Flux cfg h fresh m beg mid))
      with (TracerField m).
    change (grid (RHS_TRACER_Flux cfg h fresh m beg mid)) with (grid m).
    change (sweep (RHS_TRACER_Flux cfg h fresh m beg mid)) with (sweep m).
    rewrite (in_range_split beg mid end_ i Hmid).
    destruct (visited 0 (NTRACER cfg) trc);
      [|now rewrite !andb_false_r].
    rewrite !andb_true_r.
    destruct (in_range (mid + 1) end_ i) eqn:H2.
    + rewrite orb_true_r. now rewrite GetTracerGradient_split.
    + rewrite orb_false_r.
      destruct (in_range beg mid i) eqn:H1; [|reflexivity].
      rewrite (GetTracerGradient_range _ _ _ beg mid beg end_ i);
        [reflexivity|].
      rewrite H1. symmetry. apply in_range_true.
      apply in_range_true in H1. lia.
  - intros trc n c. rewrite !RHS_TRACER_Flux_buffer_row.
    change (TracerField (RHS_TRACER_Flux cfg h fresh m beg mid))
      with (TracerField m).
    change (grid (RHS_TRACER_Flux cfg h fresh m beg mid)) with (grid m).
    destruct (visited 0 (NTRACER cfg) trc); [|reflexivity].
    now rewrite GetTracerGradient_split.
Qed.

End Calls.

(** ** Further properties: what determines an entry *)

Section Locality.

Context {T : Type} {ops : DoubleOps T}.
Local Open Scope dbl_scope.

Variables (cfg : Config) (h : Host T).

Lemma not_computed_sweep :
  g_dir h = JDIR -> DIMENSIONS cfg = D1 ->
  computed cfg (g_dir h) (g_dir h) = false.
Proof.
  intros E Hd. unfold computed. rewrite E, Hd. reflexivity.
Qed.

(** X4.  [GetTracerGradient] writes the entries [gradField[n][c]] with [n]
    in [beg..end] and [c] a component computed in the sweep direction, and
    no other: every other entry keeps its value, and what it stores in a
    written entry does not depend on what the buffer held. *)
Theorem GetTracerGradient_write_set
    (Field : Z -> Z -> Z -> T) (gF gF' : Z -> Z -> T) (beg end_ : Z)
    (grid : Grid T) (n c : Z) :
  (~ (beg <= n <= end_) \/ computed cfg (g_dir h) c = false ->
   GetTracerGradient cfg h Field gF beg end_ grid n c = gF n c) /\
  (beg <= n <= end_ -> computed cfg (g_dir h) c = true ->
   GetTracerGradient cfg h Field gF beg end_ grid n c =
   GetTracerGradient cfg h Field gF' beg end_ grid n c).
Proof.
  split.
  - intros [Hout|Hc].
    + now rewrite GetTracerGradient_outside.
    + now apply GetTracerGradient_not_computed.
  - intros Hin Hc. now apply GetTracerGradient_computed_fresh.
Qed.

(** X5.  In a [JDIR] sweep of a one-dimensional configuration
    [GetTracerGradient] does not assign the component of the sweep
    direction: [DIM_EXPAND] keeps the first statement only, which assigns
    the component [0].  The flux that [RHS_TRACER_Flux] writes is then built
    from the entry [gradTRC[trc][i][JDIR]] left in the buffer before the
    call. *)
Theorem RHS_TRACER_Flux_stale_gradient
    (fresh : Z -> Z -> Z -> T) (m : Memory T) (beg end_ i trc : Z) :
  g_dir h = JDIR ->
  DIMENSIONS cfg = D1 ->
  beg <= i <= end_ ->
  0 <= trc < Z.of_nat (NTRACER cfg) ->
  tracer_flux (RHS_TRACER_Flux cfg h fresh m beg end_) i trc =
  vi h (vn (sweep m)) (grid m) i RHO ⊗ nu_dye h
  ⊗ buffer fresh m trc i JDIR.
Proof.
  intros Hdir Hdim Hin Htrc. rewrite RHS_TRACER_Flux_entry.
  rewrite (proj2 (in_range_true _ _ _) Hin), (proj2 (visited_all cfg trc) Htrc).
  cbn [andb].
  rewrite GetTracerGradient_not_computed by now apply not_computed_sweep.
  rewrite Hdir. reflexivity.
Qed.

(** X6.  The row [n] of the gradient depends on the field through the
    cells of the stencil only: the two cells [n] and [n+1] of the sweep
    line and their neighbours at one cell along a transverse axis whose
    component is computed.  With [DIMENSIONS = 2] an [IDIR] or [JDIR] sweep
    reads no cell of another plane [k]. *)
Theorem GetTracerGradient_stencil
    (F1 F2 : Z -> Z -> Z -> T) (gF : Z -> Z -> T) (beg end_ : Z)
    (grid : Grid T) (n : Z) :
  (forall k j i, in_stencil cfg h n k j i -> F1 k j i = F2 k j i) ->
  forall c,
    GetTracerGradient cfg h F1 gF beg end_ grid n c =
    GetTracerGradient cfg h F2 gF beg end_ grid n c.
Proof.
  intros HF c. now apply GetTracerGradient_local.
Qed.

(** X7.  The flux entry written at a cell [i] is the same in any two calls
    whose ranges contain [i] and whose memories agree on what the entry is
    made of: the field of the species on the stencil at [i], the densities
    and the widths of the cells [i] and [i+1], the metrics at [i]
    ([inv_dxi] and [xr] of the sweep axis at [i], [inv_dx] and [x] of the
    two transverse axes at their global index), and the entry
    [gradTRC[trc][i][g_dir]] of the buffer.  The bounds of the range, the
    other cells, the metrics elsewhere and the other species play no
    part. *)
Theorem RHS_TRACER_Flux_local
    (fresh1 fresh2 : Z -> Z -> Z -> T) (m1 m2 : Memory T)
    (b1 e1 b2 e2 i trc : Z) :
  b1 <= i <= e1 ->
  b2 <= i <= e2 ->
  0 <= trc < Z.of_nat (NTRACER cfg) ->
  (forall k j i', in_stencil cfg h i k j i' ->
                  TracerField m1 trc k j i' = TracerField m2 trc k j i') ->
  vn (sweep m1) i RHO = vn (sweep m2) i RHO ->
  vn (sweep m1) (i + 1) RHO = vn (sweep m2) (i + 1) RHO ->
  dx (grid m1) (g_dir h) i = dx (grid m2) (g_dir h) i ->
  dx (grid m1) (g_dir h) (i + 1) = dx (grid m2) (g_dir h) (i + 1) ->
  metrics_agree h i (grid m1) (grid m2) ->
  buffer fresh1 m1 trc i (g_dir h) = buffer fresh2 m2 trc i (g_dir h) ->
  tracer_flux (RHS_TRACER_Flux cfg h fresh1 m1 b1 e1) i trc =
  tracer_flux (RHS_TRACER_Flux cfg h fresh2 m2 b2 e2) i trc.
Proof.
  intros H1 H2 Htrc HF Hv0 Hv1 Hd0 Hd1 Hm Hbuf.
  rewrite !RHS_TRACER_Flux_entry.
  rewrite (proj2 (in_range_true _ _ _) H1), (proj2 (in_range_true _ _ _) H2).
  rewrite (proj2 (visited_all cfg trc) Htrc). cbn [andb].
  unfold vi. rewrite Hv0, Hv1, Hd0, Hd1.
  f_equal. apply GetTracerGradient_local_metrics; try assumption.
  now rewrite (proj2 (in_range_true _ _ _) H1), (proj2 (in_range_true _ _ _) H2).
Qed.

(** X8.  Of the eleven input parameters the kernel reads [REYNOLDS],
    [U_FLOW] and [LENGTH] only: a change of any other one changes neither
    the flux array nor the gradient buffer. *)
Theorem RHS_TRACER_Flux_other_params
    (fresh : Z -> Z -> Z -> T) (m : Memory T) (beg end_ p : Z) (v : T) :
  p <> REYNOLDS -> p <> U_FLOW -> p <> LENGTH ->
  (forall i trc,
      tracer_flux (RHS_TRACER_Flux cfg (set_param h p v) fresh m beg end_) i trc =
      tracer_flux (RHS_TRACER_Flux cfg h fresh m beg end_) i trc) /\
  (forall trc,
      buffer fresh (RHS_TRACER_Flux cfg (set_param h p v) fresh m beg end_) trc =
      buffer fresh (RHS_TRACER_Flux cfg h fresh m beg end_) trc).
Proof.
  intros HRe HU HL.
  assert (Hnu : nu_dye (set_param h p v) = nu_dye h).
  { unfold nu_dye, chi, del_u, UNIT_LENGTH, UNIT_VELOCITY, set_param.
    cbn [g_inputParam].
    rewrite !upd_other by (intros E; symmetry in E; contradiction).
    reflexivity. }
  split.
  - intros i trc. rewrite !RHS_TRACER_Flux_entry, Hnu. reflexivity.
  - intros trc. rewrite !RHS_TRACER_Flux_buffer_row. reflexivity.
Qed.

(** X9.  The global index of the sweep axis is not read: the loop variable
    replaces it.  A change of [g_i] in an [IDIR] sweep, of [g_j] in a
    [JDIR] sweep or of [g_k] in a [KDIR] sweep changes no entry of the flux
    array. *)
Theorem RHS_TRACER_Flux_sweep_global
    (fresh : Z -> Z -> Z -> T) (m : Memory T) (beg end_ v : Z) :
  (g_dir h = IDIR ->
   forall i trc,
     tracer_flux (RHS_TRACER_Flux cfg (set_g_i h v) fresh m beg end_) i trc =
     tracer_flux (RHS_TRACER_Flux cfg h fresh m beg end_) i trc) /\
  (g_dir h = JDIR ->
   forall i trc,
     tracer_flux (RHS_TRACER_Flux cfg (set_g_j h v) fresh m beg end_) i trc =
     tracer_flux (RHS_TRACER_Flux cfg h fresh m beg end_) i trc) /\
  (g_dir h = KDIR ->
   forall i trc,
     tracer_flux (RHS_TRACER_Flux cfg (set_g_k h v) fresh m beg end_) i trc =
     tracer_flux (RHS_TRACER_Flux cfg h fresh m beg end_) i trc).
Proof.
  split; [|split]; intros E i trc; rewrite !RHS_TRACER_Flux_entry;
    destruct (in_range beg end_ i && visited 0 (NTRACER cfg) trc);
    try reflexivity; f_equal; unfold GetTracerGradient;
    cbn [g_dir set_g_i set_g_j set_g_k]; rewrite E; reflexivity.
Qed.

End Locality.

(** ** Further properties: the metrics of the geometries *)

Section Metrics.

Context {T : Type} {ops : DoubleOps T}.
Local Open Scope dbl_scope.

Variables (cfg : Config) (h : Host T).

Ltac component_cases Hcomp Hin :=
  let E := fresh "E" in
  let Hc := fresh "Hc" in
  destruct (computed_cases _ _ _ Hcomp) as [[E|[E|E]] Hc];
  rewrite E in Hcomp; rewrite !GetTracerGradient_row;
  rewrite (proj2 (in_range_true _ _ _) Hin), E;
  cbn [Z.eqb IDIR JDIR KDIR Pos.eqb];
  unfold row_of, grad_body_IDIR, grad_body_JDIR, grad_body_KDIR,
    DIM_EXPAND, upd2; cbv zeta;
  unfold computed in Hcomp; cbn [Z.eqb IDIR JDIR KDIR Pos.eqb orb] in Hcomp;
  cbn [DIMENSIONS GEOMETRY set_GEOMETRY];
  [ destruct (DIMENSIONS cfg); destruct Hc as [-> | [-> | ->]];
    try discriminate Hcomp
  | destruct (DIMENSIONS cfg); destruct Hc as [-> | [-> | ->]];
    try discriminate Hcomp
  | destruct Hc as [-> | [-> | ->]] ];
  rewrite ?upd_same; unfold upd; cbn [Z.eqb Pos.eqb];
  unfold difference, spherical_metric, polar_metric, cartesian_metric,
    global_index;
  rewrite ?E; unfold IDIR, JDIR, KDIR; cbv match beta delta [Z.eqb Pos.eqb].

(** X10.  Metrics of the Cartesian, cylindrical and polar branches.  At
    every index of the range each computed component of the gradient is
    the finite difference [difference], which is the same in every
    geometry, times one metric.  In Cartesian geometry the metric is
    [inv_dxi] for the component of the sweep axis and [inv_dx] for a
    transverse one; cylindrical geometry stores the same values as the
    Cartesian one.  In polar geometry the metric of the angular component
    is divided by the radius, [inv_dx / xr] at the interface in a radial
    sweep and [inv_dxi * (1.0 / x)] or [inv_dx * (1.0 / x)] at the cell
    centre otherwise, and the radial and the axial components have the
    Cartesian metric. *)
Theorem GetTracerGradient_polar
    (Field : Z -> Z -> Z -> T) (gF : Z -> Z -> T) (beg end_ : Z)
    (grid : Grid T) (n c : Z) :
  beg <= n <= end_ ->
  computed cfg (g_dir h) c = true ->
  GetTracerGradient (set_GEOMETRY cfg CARTESIAN) h Field gF beg end_ grid n c =
  difference h Field n c ⊗ cartesian_metric h grid n c /\
  GetTracerGradient (set_GEOMETRY cfg CYLINDRICAL) h Field gF beg end_ grid n c =
  GetTracerGradient (set_GEOMETRY cfg CARTESIAN) h Field gF beg end_ grid n c /\
  GetTracerGradient (set_GEOMETRY cfg POLAR) h Field gF beg end_ grid n c =
  difference h Field n c ⊗ polar_metric h grid n c.
Proof.
  intros Hin Hcomp. split; [|split]; [|reflexivity|];
    component_cases Hcomp Hin; reflexivity.
Qed.

(** X11.  Metrics of the spherical branches.  At every index of the range
    each computed component of the gradient in spherical geometry is the
    same finite difference times [spherical_metric]: the radial component
    has the Cartesian metric, the one of the colatitude the polar metric,
    and the azimuthal one is divided by the radius and by the sine of the
    colatitude, [inv_dx * (1.0 / sin(x)) / xr] in a radial sweep,
    [inv_dx * (1.0 / x) / sin(xr)] in a sweep along the colatitude and
    [inv_dxi * ((1.0 / x) * (1.0 / sin(x)))] in an azimuthal sweep. *)
Theorem GetTracerGradient_spherical
    (Field : Z -> Z -> Z -> T) (gF : Z -> Z -> T) (beg end_ : Z)
    (grid : Grid T) (n c : Z) :
  beg <= n <= end_ ->
  computed cfg (g_dir h) c = true ->
  GetTracerGradient (set_GEOMETRY cfg SPHERICAL) h Field gF beg end_ grid n c =
  difference h Field n c ⊗ spherical_metric h grid n c.
Proof.
  intros Hin Hcomp. component_cases Hcomp Hin; reflexivity.
Qed.

End Metrics.

Section CartesianGrid.

Context {T : Type} {ops : DoubleOps T}.
Local Open Scope dbl_scope.

(** X18.  In Cartesian and in cylindrical geometry [GetTracerGradient]
    takes nothing from the grid but the inverse widths [inv_dx] and the
    inverse spacings [inv_dxi]: the coordinates [x] and [xr] of the cells,
    which the other geometries use as radius and colatitude, play no part
    in what it stores. *)
Theorem GetTracerGradient_cartesian_grid
    (cfg : Config) (h : Host T) (Field : Z -> Z -> Z -> T)
    (gF : Z -> Z -> T) (beg end_ : Z) (g1 g2 : Grid T) :
  GEOMETRY cfg = CARTESIAN \/ GEOMETRY cfg = CYLINDRICAL ->
  (forall d p, inv_dx g1 d p = inv_dx g2 d p) ->
  (forall d p, inv_dxi g1 d p = inv_dxi g2 d p) ->
  forall n,
    GetTracerGradient cfg h Field gF beg end_ g1 n =
    GetTracerGradient cfg h Field gF beg end_ g2 n.
Proof.
  intros Hgeo Hinv Hdxi n. rewrite !GetTracerGradient_row.
  unfold row_of, grad_body_IDIR, grad_body_JDIR, grad_body_KDIR,
    DIM_EXPAND, upd2; cbv zeta.
  destruct Hgeo as [Hgeo|Hgeo]; rewrite Hgeo, !Hinv, !Hdxi; reflexivity.
Qed.

End CartesianGrid.

(** ** Instances of the further properties *)

Section FurtherInstances.

#[local] Existing Instance Scenario.ops.

Lemma RHS_TRACER_Flux_empty_range_witness :
  tracer_flux
    (RHS_TRACER_Flux definitions_h (Scenario.host IDIR) Scenario.sevens
       (Scenario.mem Scenario.step_field) 3 2) 2 0 = (-1)%float.
Proof.
  destruct (RHS_TRACER_Flux_empty_range definitions_h (Scenario.host IDIR)
              Scenario.sevens (Scenario.mem Scenario.step_field) 3 2)
    as (Hflux & _); [lia|].
  exact (Hflux 2 0).
Defined.

Lemma RHS_TRACER_Flux_split_witness :
  tracer_flux
    (RHS_TRACER_Flux definitions_h (Scenario.host IDIR) Scenario.sevens
       (RHS_TRACER_Flux definitions_h (Scenario.host IDIR) Scenario.sevens
          (Scenario.mem Scenario.step_field) 1 2) (2 + 1) 3) 2 0 =
  tracer_flux
    (RHS_TRACER_Flux definitions_h (Scenario.host IDIR) Scenario.sevens
       (Scenario.mem Scenario.step_field) 1 3) 2 0.
Proof.
  destruct (RHS_TRACER_Flux_split definitions_h (Scenario.host IDIR)
              Scenario.sevens Scenario.sevens
              (Scenario.mem Scenario.step_field) 1 2 3)
    as (Hflux & _); [lia|].
  exact (Hflux 2 0).
Defined.

Lemma GetTracerGradient_write_set_witness :
  GetTracerGradient definitions_h (Scenario.host IDIR) (Scenario.step_field 0)
    (Scenario.sevens 0) 2 2 Scenario.uniform_grid 5 0 = 7%float /\
  GetTracerGradient definitions_h (Scenario.host IDIR) (Scenario.step_field 0)
    (Scenario.sevens 0) 2 2 Scenario.uniform_grid 2 2 = 7%float /\
  GetTracerGradient definitions_h (Scenario.host IDIR) (Scenario.step_field 0)
    (Scenario.sevens 0) 2 2 Scenario.uniform_grid 2 0 =
  GetTracerGradient definitions_h (Scenario.host IDIR) (Scenario.step_field 0)
    (Scenario.sentinel) 2 2 Scenario.uniform_grid 2 0.
Proof.
  split; [|split].
  - apply (proj1 (GetTracerGradient_write_set definitions_h (Scenario.host IDIR)
                    (Scenario.step_field 0) (Scenario.sevens 0)
                    (Scenario.sevens 0) 2 2 Scenario.uniform_grid 5 0)).
    left. lia.
  - apply (proj1 (GetTracerGradient_write_set definitions_h (Scenario.host IDIR)
                    (Scenario.step_field 0) (Scenario.sevens 0)
                    (Scenario.sevens 0) 2 2 Scenario.uniform_grid 2 2)).
    right. reflexivity.
  - apply (proj2 (GetTracerGradient_write_set definitions_h (Scenario.host IDIR)
                    (Scenario.step_field 0) (Scenario.sevens 0)
                    Scenario.sentinel 2 2 Scenario.uniform_grid 2 0));
      [lia|reflexivity].
Defined.

Lemma RHS_TRACER_Flux_stale_gradient_witness :
  let m := Scenario.mem Scenario.step_field in
  tracer_flux
    (RHS_TRACER_Flux Scenario.one_dimensional (Scenario.host JDIR)
       Scenario.sevens m 2 2) 2 0 =
  (vi (Scenario.host JDIR) (vn (sweep m)) (grid m) 2 RHO
   ⊗ nu_dye (Scenario.host JDIR)
   ⊗ buffer Scenario.sevens m 0 2 JDIR)%dbl /\
  tracer_flux
    (RHS_TRACER_Flux Scenario.one_dimensional (Scenario.host JDIR)
       Scenario.sevens m 2 2) 2 0 = 0.0014%float.
Proof.
  intros m.
  assert (H : tracer_flux
                (RHS_TRACER_Flux Scenario.one_dimensional (Scenario.host JDIR)
                   Scenario.sevens m 2 2) 2 0 =
              (vi (Scenario.host JDIR) (vn (sweep m)) (grid m) 2 RHO
               ⊗ nu_dye (Scenario.host JDIR)
               ⊗ buffer Scenario.sevens m 0 2 JDIR)%dbl).
  { apply (RHS_TRACER_Flux_stale_gradient Scenario.one_dimensional
             (Scenario.host JDIR) Scenario.sevens m 2 2 2 0);
      [reflexivity | reflexivity | lia | cbn; lia]. }
  split; [exact H|]. rewrite H. vm_compute. reflexivity.
Defined.

Lemma step_far_stencil (k j i : Z) :
  in_stencil definitions_h (Scenario.host IDIR) 2 k j i ->
  Scenario.step_field 0 k j i = Scenario.far_field 0 k j i.
Proof.
  intros Hst. unfold in_stencil in Hst.
  change (g_dir (Scenario.host IDIR) =? IDIR) with true in Hst.
  cbv iota zeta in Hst. destruct Hst as [[-> | ->] _]; reflexivity.
Qed.

Lemma GetTracerGradient_stencil_witness :
  GetTracerGradient definitions_h (Scenario.host IDIR) (Scenario.step_field 0)
    (Scenario.sevens 0) 2 2 Scenario.uniform_grid 2 1 =
  GetTracerGradient definitions_h (Scenario.host IDIR) (Scenario.far_field 0)
    (Scenario.sevens 0) 2 2 Scenario.uniform_grid 2 1.
Proof.
  apply (GetTracerGradient_stencil definitions_h (Scenario.host IDIR)).
  exact step_far_stencil.
Defined.

Lemma uniform_other_metrics :
  metrics_agree (Scenario.host IDIR) 2 Scenario.uniform_grid
    Scenario.other_metrics.
Proof.
  split; [reflexivity|]. split; [reflexivity|].
  intros axis Hax Hne.
  change (g_dir (Scenario.host IDIR)) with 0 in Hne.
  assert (Hc : axis = 1 \/ axis = 2) by lia.
  destruct Hc as [-> | ->]; split; reflexivity.
Qed.

Lemma RHS_TRACER_Flux_local_witness :
  tracer_flux
    (RHS_TRACER_Flux definitions_h (Scenario.host IDIR) Scenario.sevens
       (Scenario.mem Scenario.step_field) 2 2) 2 0 =
  tracer_flux
    (RHS_TRACER_Flux definitions_h (Scenario.host IDIR) Scenario.sevens
       (Scenario.other_metrics_mem Scenario.far_field) 1 3) 2 0 /\
  inv_dxi Scenario.other_metrics IDIR 3 <> inv_dxi Scenario.uniform_grid IDIR 3.
Proof.
  split.
  - apply (RHS_TRACER_Flux_local definitions_h (Scenario.host IDIR));
      try reflexivity; try lia.
    + cbn. lia.
    + exact step_far_stencil.
    + exact uniform_other_metrics.
  - intro H. apply (f_equal (fun v => PrimFloat.eqb v 100)) in H.
    vm_compute in H. discriminate H.
Defined.

Lemma RHS_TRACER_Flux_other_params_witness :
  tracer_flux
    (RHS_TRACER_Flux definitions_h (set_param (Scenario.host IDIR) RHO0 8%float)
       Scenario.sevens (Scenario.mem Scenario.step_field) 2 2) 2 0 =
  tracer_flux
    (RHS_TRACER_Flux definitions_h (Scenario.host IDIR) Scenario.sevens
       (Scenario.mem Scenario.step_field) 2 2) 2 0.
Proof.
  destruct (RHS_TRACER_Flux_other_params definitions_h (Scenario.host IDIR)
              Scenario.sevens (Scenario.mem Scenario.step_field) 2 2 RHO0
              8%float)
    as (Hflux & _); [discriminate | discriminate | discriminate |].
  exact (Hflux 2 0).
Defined.

Lemma RHS_TRACER_Flux_sweep_global_witness :
  tracer_flux
    (RHS_TRACER_Flux definitions_h (set_g_i (Scenario.host IDIR) 9)
       Scenario.sevens (Scenario.mem Scenario.step_field) 2 2) 2 0 =
  tracer_flux
    (RHS_TRACER_Flux definitions_h (Scenario.host IDIR) Scenario.sevens
       (Scenario.mem Scenario.step_field) 2 2) 2 0 /\
  tracer_flux
    (RHS_TRACER_Flux definitions_h (set_g_j (Scenario.host JDIR) 9)
       Scenario.sevens (Scenario.mem Scenario.step_field) 2 2) 2 0 =
  tracer_flux
    (RHS_TRACER_Flux definitions_h (Scenario.host JDIR) Scenario.sevens
       (Scenario.mem Scenario.step_field) 2 2) 2 0 /\
  tracer_flux
    (RHS_TRACER_Flux definitions_h (set_g_k (Scenario.host KDIR) 9)
       Scenario.sevens (Scenario.mem Scenario.step_field) 2 2) 2 0 =
  tracer_flux
    (RHS_TRACER_Flux definitions_h (Scenario.host KDIR) Scenario.sevens
       (Scenario.mem Scenario.step_field) 2 2) 2 0.
Proof.
  split; [|split].
  - destruct (RHS_TRACER_Flux_sweep_global definitions_h (Scenario.host IDIR)
                Scenario.sevens (Scenario.mem Scenario.step_field) 2 2 9)
      as (HI & _). exact (HI eq_refl 2 0).
  - destruct (RHS_TRACER_Flux_sweep_global definitions_h (Scenario.host JDIR)
                Scenario.sevens (Scenario.mem Scenario.step_field) 2 2 9)
      as (_ & HJ & _). exact (HJ eq_refl 2 0).
  - destruct (RHS_TRACER_Flux_sweep_global definitions_h (Scenario.host KDIR)
                Scenario.sevens (Scenario.mem Scenario.step_field) 2 2 9)
      as (_ & _ & HK). exact (HK eq_refl 2 0).
Defined.

Lemma GetTracerGradient_polar_witness :
  GetTracerGradient (set_GEOMETRY definitions_h POLAR) (Scenario.host IDIR)
    (Scenario.ramp_field 0) (Scenario.sevens 0) 2 2 Scenario.curved_grid 2 1 =
  (difference (Scenario.host IDIR) (Scenario.ramp_field 0) 2 1
   ⊗ polar_metric (Scenario.host IDIR) Scenario.curved_grid 2 1)%dbl /\
  difference (Scenario.host IDIR) (Scenario.ramp_field 0) 2 1 = 2%float /\
  polar_metric (Scenario.host IDIR) Scenario.curved_grid 2 1 = 0.25%float /\
  GetTracerGradient (set_GEOMETRY definitions_h POLAR) (Scenario.host IDIR)
    (Scenario.ramp_field 0) (Scenario.sevens 0) 2 2 Scenario.curved_grid 2 1 =
  0.5%float.
Proof.
  destruct (GetTracerGradient_polar definitions_h (Scenario.host IDIR)
              (Scenario.ramp_field 0) (Scenario.sevens 0) 2 2
              Scenario.curved_grid 2 1 ltac:(lia) eq_refl) as (_ & _ & Hp).
  split; [exact Hp|]. split; [vm_compute; reflexivity|].
  split; [vm_compute; reflexivity|]. rewrite Hp. vm_compute. reflexivity.
Defined.

Lemma GetTracerGradient_spherical_witness :
  GetTracerGradient (set_GEOMETRY definitions_h SPHERICAL)
    (Scenario.host JDIR) (Scenario.ramp_field 0) (Scenario.sevens 0) 2 2
    Scenario.curved_grid 2 1 =
  (difference (Scenario.host JDIR) (Scenario.ramp_field 0) 2 1
   ⊗ spherical_metric (Scenario.host JDIR) Scenario.curved_grid 2 1)%dbl /\
  GetTracerGradient (set_GEOMETRY definitions_h SPHERICAL)
    (Scenario.host JDIR) (Scenario.ramp_field 0) (Scenario.sevens 0) 2 2
    Scenario.curved_grid 2 1 = (2 * (1 / 3))%float.
Proof.
  assert (H := GetTracerGradient_spherical definitions_h (Scenario.host JDIR)
                 (Scenario.ramp_field 0) (Scenario.sevens 0) 2 2
                 Scenario.curved_grid 2 1 ltac:(lia) eq_refl).
  split; [exact H|]. rewrite H. vm_compute. reflexivity.
Defined.

Lemma GetTracerGradient_cartesian_grid_witness :
  GetTracerGradient definitions_h (Scenario.host JDIR) (Scenario.step_field 0)
    (Scenario.sevens 0) 2 2 Scenario.uniform_grid 2 =
  GetTracerGradient definitions_h (Scenario.host JDIR) (Scenario.step_field 0)
    (Scenario.sevens 0) 2 2 Scenario.other_coordinates 2.
Proof.
  apply (GetTracerGradient_cartesian_grid definitions_h (Scenario.host JDIR)).
  - left. reflexivity.
  - reflexivity.
  - reflexivity.
Defined.

Lemma RHS_TRACER_Flux_equal_cells_witness :
  is_zero
    (GetTracerGradient definitions_h (Scenario.host IDIR)
       (Scenario.plateau_field 0) (Scenario.sevens 0) 1 3
       Scenario.uniform_grid 2 0) = true /\
  is_zero
    (tracer_flux
       (RHS_TRACER_Flux definitions_h (Scenario.host IDIR) Scenario.sevens
          (Scenario.mem Scenario.plateau_field) 1 3) 2 0) = true /\
  is_zero
    (tracer_flux
       (RHS_TRACER_Flux definitions_h (Scenario.host IDIR) Scenario.sevens
          (Scenario.mem Scenario.plateau_field) 1 3) 3 0) = false.
Proof.
  destruct (RHS_TRACER_Flux_equal_cells (fun _ => nan) definitions_h
              (Scenario.host IDIR) Scenario.sevens
              (Scenario.mem Scenario.plateau_field) 1 3 2 0)
    as [Hg Hf]; try reflexivity.
  - left. reflexivity.
  - change (0 <= 0 <= 2). lia.
  - intros _. discriminate.
  - lia.
  - cbn. lia.
  - split; [exact Hg|]. split; [|vm_compute; reflexivity].
    apply Hf. vm_compute. reflexivity.
Defined.

End FurtherInstances.
